(** * imgDownscale: the storage-triggered image pipeline of functions/index.js

    A shallow embedding of the [onFinalize] handler together with the
    JavaScript string operations, the POSIX [path] functions and the
    collaborators (bucket, local disk, Firestore, ImageMagick, clock) it
    calls, followed by the properties of the pipeline. *)

From Stdlib Require Import ZArith Lia List Ascii String.
From Stdlib.Strings Require Import Byte.
From stdpp Require Import base option list strings gmap fin_maps.

Local Open Scope string_scope.
Local Open Scope Z_scope.
Local Open Scope list_scope.

(** ** JavaScript strings as character lists *)

Module JsString.

Definition chars := list ascii.

Definition of_string (s : string) : chars := list_ascii_of_string s.
Definition to_string (l : chars) : string := string_of_list_ascii l.

Definition eqc (a b : ascii) : bool := Ascii.eqb a b.

(** [s.startsWith(p)] *)
Fixpoint startsWith_l (p s : chars) : bool :=
  match p, s with
  | [], _ => true
  | a :: p', b :: s' => eqc a b && startsWith_l p' s'
  | _ :: _, [] => false
  end.

(** [s.endsWith(p)] *)
Definition endsWith_l (p s : chars) : bool :=
  startsWith_l (rev p) (rev s).

(** [s.replace(pat, rep)] with a string pattern: only the first
    occurrence of [pat], scanning from the left, is replaced. *)
Fixpoint replace_l (pat rep s : chars) : chars :=
  if startsWith_l pat s then rep ++ drop (length pat) s
  else match s with
       | [] => []
       | c :: s' => c :: replace_l pat rep s'
       end.

Definition startsWith (s p : string) : bool :=
  startsWith_l (of_string p) (of_string s).
Definition endsWith (s p : string) : bool :=
  endsWith_l (of_string p) (of_string s).
Definition replace (s pat rep : string) : string :=
  to_string (replace_l (of_string pat) (of_string rep) (of_string s)).

End JsString.

(** ** Node's [path] module, POSIX flavour *)

Module Path.
Import JsString.

Definition is_slash (c : ascii) : bool := eqc c "/".
Definition not_slash (c : ascii) : bool := negb (is_slash c).

Fixpoint dropWhile (f : ascii -> bool) (l : chars) : chars :=
  match l with
  | [] => []
  | c :: l' => if f c then dropWhile f l' else l
  end.

Fixpoint takeWhile (f : ascii -> bool) (l : chars) : chars :=
  match l with
  | [] => []
  | c :: l' => if f c then c :: takeWhile f l' else []
  end.

(** The segments between the slashes; never the empty list. *)
Fixpoint segments (s : chars) : list chars :=
  match s with
  | [] => [[]]
  | c :: s' =>
      if is_slash c then [] :: segments s'
      else match segments s' with
           | seg :: rest => (c :: seg) :: rest
           | [] => [[c]]
           end
  end.

Fixpoint unsegments (l : list chars) : chars :=
  match l with
  | [] => []
  | [seg] => seg
  | seg :: rest => seg ++ "/"%char :: unsegments rest
  end.

Definition dot : chars := ["."%char].
Definition dotdot : chars := ["."%char; "."%char].

Definition chars_eqb (a b : chars) : bool := bool_decide (a = b).

(** One step of [normalizeString]: [stack] holds the segments kept so
    far, innermost first. *)
Definition norm_step (allowAboveRoot : bool) (stack : list chars)
    (seg : chars) : list chars :=
  if chars_eqb seg [] || chars_eqb seg dot then stack
  else if chars_eqb seg dotdot then
    match stack with
    | top :: below =>
        if chars_eqb top dotdot
        then (if allowAboveRoot then dotdot :: stack else stack)
        else below
    | [] => if allowAboveRoot then [dotdot] else []
    end
  else seg :: stack.

Definition normalizeString (p : chars) (allowAboveRoot : bool) : chars :=
  unsegments (rev (foldl (norm_step allowAboveRoot) [] (segments p))).

Definition hasRoot (p : chars) : bool :=
  match p with c :: _ => is_slash c | [] => false end.

Definition trailingSeparator (p : chars) : bool :=
  match rev p with c :: _ => is_slash c | [] => false end.

(** [path.normalize] *)
Definition normalize_l (p : chars) : chars :=
  match p with
  | [] => dot
  | _ =>
      let isAbsolute := hasRoot p in
      let trailing := trailingSeparator p in
      let q := normalizeString p (negb isAbsolute) in
      match q with
      | [] => if isAbsolute then ["/"%char]
              else if trailing then ["."%char; "/"%char] else dot
      | _ =>
          let q' := if trailing then q ++ ["/"%char] else q in
          if isAbsolute then "/"%char :: q' else q'
      end
  end.

(** [path.join(a, b)] *)
Definition join_l (a b : chars) : chars :=
  match a, b with
  | [], [] => dot
  | [], _ => normalize_l b
  | _, [] => normalize_l a
  | _, _ => normalize_l (a ++ "/"%char :: b)
  end.

(** [path.basename(p)] without a suffix argument *)
Definition basename_l (p : chars) : chars :=
  rev (takeWhile not_slash (dropWhile is_slash (rev p))).

(** [path.dirname(p)]: the scan runs from the last character down to
    index 1, so the first character is never looked at as a separator
    candidate. *)
Definition dirname_l (p : chars) : chars :=
  match p with
  | [] => dot
  | c0 :: rest =>
      let r2 := dropWhile not_slash (dropWhile is_slash (rev rest)) in
      match r2 with
      | [] => if is_slash c0 then ["/"%char] else dot
      | _ :: before =>
          if is_slash c0 && bool_decide (before = [])
          then ["/"%char; "/"%char]
          else c0 :: rev before
      end
  end.

Definition normalize (p : string) : string :=
  to_string (normalize_l (of_string p)).
Definition join (a b : string) : string :=
  to_string (join_l (of_string a) (of_string b)).
Definition basename (p : string) : string :=
  to_string (basename_l (of_string p)).
Definition dirname (p : string) : string :=
  to_string (dirname_l (of_string p)).

End Path.

(** ** [Date.prototype.toISOString] *)

Module JsDate.
Import JsString.

Definition digit (d : Z) : ascii :=
  match d with
  | 0 => "0" | 1 => "1" | 2 => "2" | 3 => "3" | 4 => "4"
  | 5 => "5" | 6 => "6" | 7 => "7" | 8 => "8" | _ => "9"
  end%char.

(** The [k] low decimal digits of [n], most significant first. *)
Fixpoint pad (k : nat) (n : Z) : chars :=
  match k with
  | O => []
  | S k' => pad k' (n / 10) ++ [digit (n mod 10)]
  end.

Definition msPerDay : Z := 86400000.

(** Proleptic Gregorian date of day number [days] (day 0 is
    1970-01-01), as ECMAScript's YearFromTime, MonthFromTime and
    DateFromTime give it; months count from 1 here. *)
Definition civil (days : Z) : Z * Z * Z :=
  let z := days + 719468 in
  let era := z / 146097 in
  let doe := z - era * 146097 in
  let yoe := (doe - doe / 1460 + doe / 36524 - doe / 146096) / 365 in
  let doy := doe - (365 * yoe + yoe / 4 - yoe / 100) in
  let mp := (5 * doy + 2) / 153 in
  let d := doy - (153 * mp + 2) / 5 + 1 in
  let m := if (mp <? 10)%Z then mp + 3 else mp - 9 in
  let y := yoe + era * 400 + (if (m <=? 2)%Z then 1 else 0) in
  (y, m, d).

Definition year_chars (y : Z) : chars :=
  if ((0 <=? y) && (y <=? 9999))%Z then pad 4 y
  else (if (y <? 0)%Z then "-"%char else "+"%char) :: pad 6 (Z.abs y).

(** [t] is the time value, milliseconds since the epoch. *)
Definition toISOString_l (t : Z) : chars :=
  let '(y, m, d) := civil (t / msPerDay) in
  let ms := t mod msPerDay in
  year_chars y ++ "-"%char :: pad 2 m ++ "-"%char :: pad 2 d
    ++ "T"%char :: pad 2 (ms / 3600000)
    ++ ":"%char :: pad 2 (ms / 60000 mod 60)
    ++ ":"%char :: pad 2 (ms / 1000 mod 60)
    ++ "."%char :: pad 3 (ms mod 1000) ++ ["Z"%char].

Definition toISOString (t : Z) : string := to_string (toISOString_l t).

End JsDate.

Import JsString Path JsDate.

(** ** The event, the stores and the collaborators *)

Definition bytes := list byte.

(** The storage object handed to the [onFinalize] callback. A field that
    is [undefined] in JavaScript is [None]. *)
Record ObjectMetadata := {
  name : option string;
  bucket : string;
  contentType : option string;
  metadata : option (gmap string string);
}.

(** What the run can read and change: the buckets (keyed by bucket name
    and object key), the local disk and the Firestore documents. *)
Record World := {
  storage : gmap (string * string) bytes;
  disk : gmap string bytes;
  firestore : gmap string (gmap string string);
}.

Definition set_storage
    (f : gmap (string * string) bytes -> gmap (string * string) bytes)
    (w : World) : World :=
  {| storage := f (storage w); disk := disk w; firestore := firestore w |}.
Definition set_disk (f : gmap string bytes -> gmap string bytes)
    (w : World) : World :=
  {| storage := storage w; disk := f (disk w); firestore := firestore w |}.
Definition set_firestore
    (f : gmap string (gmap string string) -> gmap string (gmap string string))
    (w : World) : World :=
  {| storage := storage w; disk := disk w; firestore := f (firestore w) |}.

Inductive Level := LvlLog | LvlInfo | LvlWarn.

(** What is logged after the message: a string, the size of a file (in
    bytes: the handler prints it in megabytes) or the dimensions of an
    image. The text the logger makes of the numbers is not modelled. *)
Inductive LogArg :=
| LStr (s : string)
| LSize (size : Z)
| LDims (width height : Z).

(** Every call the handler makes on a collaborator. *)
Inductive Call :=
| CLog (lvl : Level) (msg : string) (args : list LogArg)
| CMkdirp (dir : string)
| CDownload (bkt key destination : string)
| CStatSync (file : string)
| CSizeOf (file : string)
| CSpawn (cmd : string) (args : list string)
| CCopyFileSync (src dst : string)
| CUpload (bkt src destination : string)
| CGetSignedUrl (bkt key : string)
| CUnlinkSync (file : string)
| CDelete (bkt key : string)
| CDoc (documentPath : option string)
| CUpdate (documentPath field value : string).

Inductive Event :=
| Done (c : Call)
| Failed (c : Call).

Inductive Error :=
| Rejected (c : Call)
| TypeError.

(** What is outside the program: the clock, the temporary directory, the
    image decoder behind [sizeOf], ImageMagick's [-resize], the signer,
    and [fault], which says for each call whether it fails for a reason
    of its own (network, permissions, disk). *)
Record Env := {
  now : Z;
  tmpdir : string;
  imageSize : bytes -> option (Z * Z);
  resize : string -> bytes -> option bytes;
  signedUrl : string -> string -> string;
  fault : Call -> bool;
}.

(** ** The monad of the handler: state, trace and exceptions *)

Record State := { world : World; trace : list Event }.

Inductive Result (A : Type) :=
| Value (a : A)
| Thrown (e : Error).
Arguments Value {A} a.
Arguments Thrown {A} e.

Definition M (A : Type) : Type := State -> Result A * State.

Definition ret {A} (a : A) : M A := fun st => (Value a, st).

Definition bind {A B} (m : M A) (k : A -> M B) : M B :=
  fun st =>
    match m st with
    | (Value a, st') => k a st'
    | (Thrown e, st') => (Thrown e, st')
    end.

Definition throw {A} (e : Error) : M A := fun st => (Thrown e, st).

Notation "x <- m ;; k" := (bind m (fun x => k))
  (at level 100, m at next level, right associativity).
Notation "m ;;; k" := (bind m (fun _ => k))
  (at level 100, right associativity).

Definition record (e : Event) (st : State) : State :=
  {| world := world st; trace := trace st ++ [e] |}.

Section Collaborators.
Variable env : Env.

(** A call either fails, leaving the world as it is, or completes with
    a value and a new world; both are recorded. *)
Definition call {A} (c : Call) (body : World -> option (A * World)) : M A :=
  fun st =>
    if fault env c then (Thrown (Rejected c), record (Failed c) st)
    else match body (world st) with
         | Some (a, w') =>
             (Value a, {| world := w'; trace := trace st ++ [Done c] |})
         | None => (Thrown (Rejected c), record (Failed c) st)
         end.

(** [functions.logger.log], [.info] and [.warn]: they do not fail. *)
Definition log (lvl : Level) (msg : string) (args : list LogArg) : M unit :=
  fun st => (Value tt, record (Done (CLog lvl msg args)) st).

Definition mkdirp (dir : string) : M unit :=
  call (CMkdirp dir) (fun w => Some (tt, w)).

(** [bucket.file(key).download({destination})] *)
Definition download (bkt key destination : string) : M unit :=
  call (CDownload bkt key destination) (fun w =>
    b ← storage w !! (bkt, key);
    Some (tt, set_disk <[destination := b]> w)).

(** [fs.statSync(file).size] *)
Definition statSync (file : string) : M Z :=
  call (CStatSync file) (fun w =>
    b ← disk w !! file; Some (Z.of_nat (length b), w)).

(** [sizeOf(file)] of image-size: width and height *)
Definition sizeOf (file : string) : M (Z * Z) :=
  call (CSizeOf file) (fun w =>
    b ← disk w !! file; d ← imageSize env b; Some (d, w)).

(** [spawn(cmd, args)]: the only program run is ImageMagick's
    [convert src -resize geometry dst]. *)
Definition spawn (cmd : string) (args : list string) : M unit :=
  call (CSpawn cmd args) (fun w =>
    match args with
    | [src; opt; geometry; dst] =>
        if bool_decide (cmd = "convert" ∧ opt = "-resize") then
          b ← disk w !! src;
          b' ← resize env geometry b;
          Some (tt, set_disk <[dst := b']> w)
        else None
    | _ => None
    end).

Definition copyFileSync (src dst : string) : M unit :=
  call (CCopyFileSync src dst) (fun w =>
    b ← disk w !! src; Some (tt, set_disk <[dst := b]> w)).

(** [bucket.upload(src, {destination})]; the value is the key of the
    new file, [response[0]]. *)
Definition upload (bkt src destination : string) : M string :=
  call (CUpload bkt src destination) (fun w =>
    b ← disk w !! src;
    Some (destination, set_storage <[(bkt, destination) := b]> w)).

(** [file.getSignedUrl({action: "read", expires})], first element *)
Definition getSignedUrl (bkt key : string) : M string :=
  call (CGetSignedUrl bkt key) (fun w =>
    Some (signedUrl env bkt key, w)).

Definition unlinkSync (file : string) : M unit :=
  call (CUnlinkSync file) (fun w =>
    _ ← disk w !! file; Some (tt, set_disk (delete file) w)).

(** [bucket.file(key).delete()] *)
Definition deleteFile (bkt key : string) : M unit :=
  call (CDelete bkt key) (fun w =>
    _ ← storage w !! (bkt, key);
    Some (tt, set_storage (delete (bkt, key)) w)).

(** [admin.firestore().doc(path)]: the path has to be a non-empty
    string. *)
Definition doc (documentPath : option string) : M string :=
  call (CDoc documentPath) (fun w =>
    match documentPath with
    | Some p => if bool_decide (p = "") then None else Some (p, w)
    | None => None
    end).

(** [docRef.update({field: value})]: the document has to exist. *)
Definition update (documentPath field value : string) : M unit :=
  call (CUpdate documentPath field value) (fun w =>
    fields ← firestore w !! documentPath;
    Some (tt, set_firestore <[documentPath := <[field := value]> fields]> w)).

End Collaborators.

(** ** The handler *)

Record RunResult := {
  originalMetadata : gmap string string;
  url : string;
}.

Section Handler.
Variable env : Env.
Variable object : ObjectMetadata.

Definition filePath : string := default "" (name object).

(** [object.contentType?.startsWith("image/")], [undefined] is falsy *)
Definition isImage : bool :=
  match contentType object with
  | Some ct => startsWith ct "image/"
  | None => false
  end.

Definition baseFileName : string := basename filePath.
Definition fileDir : string := dirname filePath.

Definition scaledFilePath : string :=
  normalize (join fileDir (toISOString (now env) +:+ "_" +:+ baseFileName)).
Definition tempLocalFile : string := join (tmpdir env) filePath.
Definition tempLocalDir : string := dirname tempLocalFile.
Definition tempLocalScaledFile : string := join (tmpdir env) scaledFilePath.
Definition bucketFilePath : string :=
  replace scaledFilePath "upload/" "images/".

(** [object.metadata.messageOrigin]: reading a property of [undefined]
    throws. *)
Definition messageOrigin : M (option string) :=
  match metadata object with
  | Some md => ret (md !! "messageOrigin")
  | None => throw TypeError
  end.

Definition imgDownscale : M (option RunResult) :=
  log LvlLog "Loaded file:" [LStr filePath] ;;;
  if negb isImage then
    log LvlWarn "This is not an image." [] ;;;
    ret None
  else if negb (endsWith fileDir "/upload") then
    log LvlInfo "skip running for scaled images" [] ;;;
    ret None
  else
    log LvlLog "Destination file path:" [LStr tempLocalScaledFile] ;;;
    mkdirp env tempLocalDir ;;;
    download env (bucket object) filePath tempLocalFile ;;;
    log LvlInfo "The file has been downloaded to" [LStr tempLocalFile] ;;;
    imgInfo <- statSync env tempLocalFile ;;
    imgDimensions <- sizeOf env tempLocalFile ;;
    log LvlLog "File size MB:" [LSize imgInfo] ;;;
    log LvlLog "Image dimensions:"
      [LDims (fst imgDimensions) (snd imgDimensions)] ;;;
    (if (1080 <? fst imgDimensions)%Z then
       log LvlLog "Image too large, downscaling" [] ;;;
       spawn env "convert"
         [tempLocalFile; "-resize"; "x1080"; tempLocalScaledFile]
     else
       log LvlLog "No downscale needed" [] ;;;
       copyFileSync env tempLocalFile tempLocalScaledFile) ;;;
    log LvlLog "New file created at" [LStr tempLocalScaledFile] ;;;
    response <- upload env (bucket object) tempLocalScaledFile bucketFilePath ;;
    log LvlInfo "New file uploaded to storage:" [LStr bucketFilePath] ;;;
    signedImageUrl <- getSignedUrl env (bucket object) response ;;
    log LvlInfo "Generated signed url:" [LStr signedImageUrl] ;;;
    unlinkSync env tempLocalScaledFile ;;;
    unlinkSync env tempLocalFile ;;;
    deleteFile env (bucket object) filePath ;;;
    log LvlInfo "Deleted the asset upload." [] ;;;
    origin <- messageOrigin ;;
    docRef <- doc env origin ;;
    update env docRef "resource" signedImageUrl ;;;
    log LvlInfo "Updated the firestore origin message. Finishing." [] ;;;
    ret (Some {| originalMetadata := default ∅ (metadata object);
                 url := signedImageUrl |}).

(** One delivery of the event, started in world [w]. *)
Definition run (w : World) : Result (option RunResult) * State :=
  imgDownscale {| world := w; trace := [] |}.

End Handler.

(** ** What is observed of a run *)

Global Instance Level_eq_dec : EqDecision Level.
Proof. solve_decision. Defined.
Global Instance LogArg_eq_dec : EqDecision LogArg.
Proof. solve_decision. Defined.
Global Instance Call_eq_dec : EqDecision Call.
Proof. solve_decision. Defined.
Global Instance Event_eq_dec : EqDecision Event.
Proof. solve_decision. Defined.

(** The call was made, whether it completed or failed. *)
Definition attempted (c : Call) (tr : list Event) : Prop :=
  Done c ∈ tr ∨ Failed c ∈ tr.

Definition is_log (e : Event) : Prop :=
  ∃ lvl msg args, e = Done (CLog lvl msg args).

(** Nothing but logger calls: no storage, disk or Firestore call. *)
Definition quiet (tr : list Event) : Prop := Forall is_log tr.

(** [a] occurs in the trace, and [b] occurs later. *)
Definition before (a b : Event) (tr : list Event) : Prop :=
  ∃ l1 l2 l3, tr = l1 ++ a :: l2 ++ b :: l3.

(** [a] occurs before the call [c] is made. *)
Definition before_call (a : Event) (c : Call) (tr : list Event) : Prop :=
  before a (Done c) tr ∨ before a (Failed c) tr.

Definition returned {A} (r : Result A) : Prop := ∃ a, r = Value a.

(** The early exits of the filter: [null] is returned, the world is as
    it was and only the logger was called. *)
Definition skipped (w : World) (r : Result (option RunResult) * State) : Prop :=
  fst r = Value None ∧ world (snd r) = w ∧ quiet (trace (snd r)).

Section Named.
Variable env : Env.
Variable object : ObjectMetadata.

(** The original object and the published artifact, as storage keys. *)
Definition original : string * string := (bucket object, filePath object).
Definition artifact : string * string :=
  (bucket object, bucketFilePath env object).

Definition downloadCall : Call :=
  CDownload (bucket object) (filePath object) (tempLocalFile env object).
Definition sizeOfCall : Call := CSizeOf (tempLocalFile env object).
Definition resizeCall : Call :=
  CSpawn "convert"
    [tempLocalFile env object; "-resize"; "x1080";
     tempLocalScaledFile env object].
Definition copyCall : Call :=
  CCopyFileSync (tempLocalFile env object) (tempLocalScaledFile env object).
Definition uploadCall : Call :=
  CUpload (bucket object) (tempLocalScaledFile env object)
    (bucketFilePath env object).
Definition signCall : Call :=
  CGetSignedUrl (bucket object) (bucketFilePath env object).
Definition deleteCall : Call := CDelete (bucket object) (filePath object).

(** The scaled artifact was uploaded to its new key and a signed read
    URL was obtained for it. *)
Definition published (tr : list Event) : Prop :=
  Done uploadCall ∈ tr ∧ Done signCall ∈ tr.

(** The original was in the bucket before the run and is not after. *)
Definition deleted (w : World) (st : State) : Prop :=
  is_Some (storage w !! original) ∧ storage (world st) !! original = None.

(** Every local file the run created is gone from the disk. *)
Definition temp_files_removed (st : State) : Prop :=
  (Done downloadCall ∈ trace st ->
   disk (world st) !! tempLocalFile env object = None) ∧
  (Done resizeCall ∈ trace st ∨ Done copyCall ∈ trace st ->
   disk (world st) !! tempLocalScaledFile env object = None).

(** [metadata.messageOrigin], [None] when the key or the metadata is
    missing. *)
Definition originOf : option string :=
  match metadata object with
  | Some md => md !! "messageOrigin"
  | None => None
  end.

(** What ImageMagick documents for [-resize x1080] on an image of
    [wd] by [ht] pixels with content [b]: the height becomes 1080 and
    the width follows in proportion, rounded to the nearest pixel. *)
Definition resizes_to_height_1080 (b : bytes) (wd ht : Z) : Prop :=
  ∀ b', resize env "x1080" b = Some b' ->
    ∃ wd', imageSize env b' = Some (wd', 1080) ∧
           2 * Z.abs (wd' * ht - wd * 1080) ≤ ht.

(** The destination key in the words of the specification: the
    directory of the original with its staging subdirectory "upload"
    replaced by "images", joined with the timestamped name. *)
Definition stagingReplaced (dir : string) : string :=
  to_string (rev (drop 6 (rev (of_string dir))) ++ of_string "images").
Definition destinationKeySpec : string :=
  join (stagingReplaced (fileDir object))
       (toISOString (now env) +:+ "_" +:+ baseFileName object).

End Named.

Definition is_update (e : Event) : bool :=
  match e with
  | Done (CUpdate _ _ _) | Failed (CUpdate _ _ _) => true
  | _ => false
  end.

(** The event passes the filter. *)
Definition passesFilter (object : ObjectMetadata) : bool :=
  isImage object && endsWith (fileDir object) "/upload".

(** The kinds of collaborator call, for counting them in a trace; the
    resize and the copy are the two forms of the transformation. *)
Inductive Kind :=
| KMkdirp | KDownload | KStatSync | KSizeOf | KTransform | KUpload
| KGetSignedUrl | KUnlinkSync | KDelete | KDoc | KUpdate.

Definition is_kind (k : Kind) (c : Call) : bool :=
  match k, c with
  | KMkdirp, CMkdirp _ => true
  | KDownload, CDownload _ _ _ => true
  | KStatSync, CStatSync _ => true
  | KSizeOf, CSizeOf _ => true
  | KTransform, CSpawn _ _ => true
  | KTransform, CCopyFileSync _ _ => true
  | KUpload, CUpload _ _ _ => true
  | KGetSignedUrl, CGetSignedUrl _ _ => true
  | KUnlinkSync, CUnlinkSync _ => true
  | KDelete, CDelete _ _ => true
  | KDoc, CDoc _ => true
  | KUpdate, CUpdate _ _ _ => true
  | _, _ => false
  end.

Definition call_of (e : Event) : Call :=
  match e with Done c | Failed c => c end.

Definition is_failed (e : Event) : bool :=
  match e with Failed _ => true | Done _ => false end.

(** How many calls of kind [k] the trace holds, completed or failed. *)
Definition count_kind (k : Kind) (tr : list Event) : nat :=
  length (List.filter (λ e, is_kind k (call_of e)) tr).

(** The claims that do not hold as stated, as predicates on one run. *)

(** C1 as stated: deleted if and only if uploaded and signed. *)
Definition deleted_iff_published env object (w : World) : Prop :=
  let st := snd (run env object w) in
  deleted object w st <-> published env object (trace st).

(** C2 as stated, second half: the artifact is never larger than the
    original in either dimension. *)
Definition never_upscaled env object (w : World) : Prop :=
  let st := snd (run env object w) in
  ∀ b wd ht b' wd' ht',
    storage w !! original object = Some b ->
    imageSize env b = Some (wd, ht) ->
    storage (world st) !! artifact env object = Some b' ->
    imageSize env b' = Some (wd', ht') ->
    wd' ≤ wd ∧ ht' ≤ ht.

(** C8 as stated: without a messageOrigin no update is attempted and the
    run completes. *)
Definition completes_without_origin env object (w : World) : Prop :=
  let r := run env object w in
  (∀ p f v, ¬ attempted (CUpdate p f v) (trace (snd r))) ∧
  ∃ res, fst r = Value (Some res).

(** ** Slash-free names and what stands before them *)

Definition no_slash (l : chars) : Prop := Forall (λ c, is_slash c = false) l.

(** Empty, or ending in a slash: what stands before a file name. *)
Definition dirpart (l : chars) : Prop := l = [] ∨ ∃ v, l = v ++ ["/"%char].

(** The characters after the last slash. *)
Definition last_seg (l : chars) : chars := rev (takeWhile not_slash (rev l)).

(** The characters [toISOString] can produce. *)
Definition iso_char (c : ascii) : bool :=
  existsb (eqc c) (of_string "0123456789-+T:.Z").

(** A segment that [normalize] keeps as it is. *)
Definition plain (n : chars) : Prop :=
  no_slash n ∧ n ≠ [] ∧ n ≠ dot ∧ n ≠ dotdot.

(** The segments, each followed by a slash. *)
Definition slashed (ss : list chars) : chars :=
  concat (map (λ s, s ++ ["/"%char]) ss).

(** Directories that normalisation leaves alone and that [replace]
    passes over: plain segments, none of which ends in "upload". *)
Definition tidy (ss : list chars) : Prop :=
  Forall plain ss ∧
  Forall (λ s, endsWith_l (of_string "upload") s = false) ss.

(** ** A toy decoder and resizer, and the scenarios of the specification *)

Module Scenario.

Definition byte_of (z : Z) : byte :=
  default x00 (Byte.of_N (Z.to_N (z mod 256))).
Definition num_of (b : byte) : Z := Z.of_N (Byte.to_N b).

(** Width and height are the first four bytes, big-endian. *)
Definition header (w h : Z) : bytes :=
  [byte_of (w / 256); byte_of w; byte_of (h / 256); byte_of h].

Definition toySize (b : bytes) : option (Z * Z) :=
  match b with
  | w1 :: w0 :: h1 :: h0 :: _ =>
      Some (256 * num_of w1 + num_of w0, 256 * num_of h1 + num_of h0)
  | _ => None
  end.

(** [-resize x1080]: height 1080, width scaled by the same factor and
    rounded to the nearest pixel. *)
Definition toyResize (geometry : string) (b : bytes) : option bytes :=
  if bool_decide (geometry = "x1080") then
    match toySize b with
    | Some (w, h) =>
        if (0 <? h)%Z then Some (header ((2 * w * 1080 + h) / (2 * h)) 1080)
        else None
    | None => None
    end
  else None.

Definition toyUrl (bkt key : string) : string :=
  "https://storage.example/" +:+ bkt +:+ "/" +:+ key +:+ "?sig".

(** No call fails unless [faulty] says so. *)
Definition envWith (faulty : Call -> bool) : Env :=
  {| now := 1700000000000; tmpdir := "/tmp";
     imageSize := toySize; resize := toyResize; signedUrl := toyUrl;
     fault := faulty |}.

Definition reliable : Env := envWith (λ _, false).

(** The reliable environment at another time. *)
Definition reliableAt (t : Z) : Env :=
  {| now := t; tmpdir := "/tmp";
     imageSize := toySize; resize := toyResize; signedUrl := toyUrl;
     fault := λ _, false |}.

(** The service account may not delete objects. *)
Definition deleteDenied : Env :=
  envWith (λ c, match c with CDelete _ _ => true | _ => false end).

(** The upload is cut off. *)
Definition uploadRefused : Env :=
  envWith (λ c, match c with CUpload _ _ _ => true | _ => false end).

Definition event (key : string) (ct : option string)
    (md : option (gmap string string)) : ObjectMetadata :=
  {| name := Some key; bucket := "app.appspot.com";
     contentType := ct; metadata := md |}.

(** The event of the specification's scenarios. *)
Definition pic : ObjectMetadata :=
  event "files/u1/assets/upload/pic.png" (Some "image/png")
    (Some {[ "messageOrigin" := "msgs/m1" ]}).

Definition note : ObjectMetadata :=
  event "files/u1/assets/upload/note.txt" (Some "text/plain")
    (Some {[ "messageOrigin" := "msgs/m1" ]}).

(** An artifact of an earlier run. *)
Definition scaled : ObjectMetadata :=
  event "files/u1/assets/images/2023-11-14T22:13:20.000Z_pic.png"
    (Some "image/png") None.

Definition nameless : ObjectMetadata :=
  {| name := None; bucket := "app.appspot.com";
     contentType := Some "image/png"; metadata := None |}.

(** The same picture, uploaded without a messageOrigin. *)
Definition anonymous : ObjectMetadata :=
  event "files/u1/assets/upload/pic.png" (Some "image/png") (Some ∅).

(** A user whose id ends in "upload". *)
Definition teamPic : ObjectMetadata :=
  event "files/team-upload/assets/upload/pic.png" (Some "image/png")
    (Some {[ "messageOrigin" := "msgs/m1" ]}).

(** A picture at the root of the bucket. *)
Definition rootPic : ObjectMetadata :=
  event "pic.png" (Some "image/png") (Some {[ "messageOrigin" := "msgs/m1" ]}).

(** The bucket holds the object of the event with content [content];
    the origin document exists and is empty. *)
Definition worldWith (o : ObjectMetadata) (content : bytes) : World :=
  {| storage := {[ (bucket o, default "" (name o)) := content ]};
     disk := ∅;
     firestore := {[ "msgs/m1" := ∅ ]} |}.

Definition wide : bytes := header 2000 1000.
Definition small : bytes := header 800 600.

(** Two bytes: too short for the decoder. *)
Definition garbled : bytes := [byte_of 1; byte_of 2].

(** A header of height 0, which the resizer rejects. *)
Definition flat : bytes := header 2000 0.

(** The same picture, sent from a message that does not exist. *)
Definition orphan : ObjectMetadata :=
  event "files/u1/assets/upload/pic.png" (Some "image/png")
    (Some {[ "messageOrigin" := "msgs/gone" ]}).


(** The picture among other things: another object, a file of another
    process and two messages with a text. *)
Definition crowded : World :=
  {| storage := {[ ("app.appspot.com", "files/u1/assets/upload/pic.png") := wide;
                   ("app.appspot.com", "files/u1/avatar.png") := small ]};
     disk := {[ "/tmp/session.lock" := [] ]};
     firestore := {[ "msgs/m1" := {[ "text" := "look" ]};
                     "msgs/m2" := {[ "text" := "nice" ]} ]} |}.

End Scenario.

Import Scenario.

(** ** Symbolic execution of the handler *)

Arguments original : simpl never.
Arguments artifact : simpl never.

Section Exec.
Context {A B : Type} (env : Env).

Lemma bind_ret (a : A) (k : A -> M B) st : bind (ret a) k st = k a st.
Proof. reflexivity. Qed.

Lemma bind_throw (e : Error) (k : A -> M B) st :
  bind (throw e) k st = (Thrown e, st).
Proof. reflexivity. Qed.

Lemma bind_log lvl msg args (k : unit -> M B) st :
  bind (log lvl msg args) k st = k tt (record (Done (CLog lvl msg args)) st).
Proof. reflexivity. Qed.

Lemma bind_call c (body : World -> option (A * World)) (k : A -> M B) st :
  bind (call env c body) k st =
    if fault env c then (Thrown (Rejected c), record (Failed c) st)
    else match body (world st) with
         | Some (a, w') =>
             k a {| world := w'; trace := trace st ++ [Done c] |}
         | None => (Thrown (Rejected c), record (Failed c) st)
         end.
Proof.
  unfold bind, call. destruct (fault env c); [reflexivity|].
  destruct (body (world st)) as [[a w']|]; reflexivity.
Qed.
End Exec.

Lemma bind_assoc {A B C} (m : M A) (f : A -> M B) (g : B -> M C) st :
  bind (bind m f) g st = bind m (fun a => bind (f a) g) st.
Proof. unfold bind. destruct (m st) as [[a|e] st']; reflexivity. Qed.

Ltac unfold_ops :=
  unfold mkdirp, download, statSync, sizeOf, spawn, copyFileSync, upload,
    getSignedUrl, unlinkSync, deleteFile, doc, update.

Ltac red_state :=
  cbn [world trace record storage disk firestore set_disk set_storage
       set_firestore fst snd app mbind option_bind negb].

(** Run the next statement of the handler, splitting on what the
    collaborator answers. *)
Ltac step :=
  lazymatch goal with
  | |- context [bind (bind _ _) _ _] => rewrite bind_assoc
  | |- context [bind (log _ _ _) _ _] => rewrite bind_log; red_state
  | |- context [bind (ret _) _ _] => rewrite bind_ret
  | |- context [bind (throw _) _ _] => rewrite bind_throw
  | |- context [bind (call _ _ _) _ _] =>
      rewrite bind_call; red_state;
      rewrite ?lookup_insert_eq; red_state;
      lazymatch goal with
      | |- context [if fault ?e ?c then _ else _] =>
          let H := fresh "Hfault" in destruct (fault e c) eqn:H
      end;
      [ | repeat lazymatch goal with
          | |- context [bool_decide ("convert" = "convert" ∧ _)] =>
              rewrite (bool_decide_eq_true_2
                         ("convert" = "convert" ∧ "-resize" = "-resize"))
                by (split; reflexivity)
          | |- context [mbind _ ?o] =>
              let H := fresh "Hget" in
              destruct o eqn:H; red_state; rewrite ?lookup_insert_eq; red_state
          | |- context [match ?o with
                        | Some p => if bool_decide (p = "") then _ else _
                        | None => _
                        end] =>
              let H := fresh "Horigin" in
              destruct o eqn:H; [case_bool_decide|]
          end ]
  | |- context [bind (if ?b then _ else _) _ _] =>
      let H := fresh "Hwide" in destruct b eqn:H
  | |- context [bind (messageOrigin ?o) _ _] =>
      unfold messageOrigin;
      let H := fresh "Hmeta" in destruct (metadata o) eqn:H
  end.

(** All the ways a run can go, one goal each: the two skips, a failure
    at each call, and completion. The run is named first, so that it is
    executed once however often the goal mentions it. *)
Ltac run_cases :=
  lazymatch goal with
  | |- context [run ?env ?object ?w] =>
      let r := fresh "r" in
      let Hr := fresh "Hr" in
      remember (run env object w) as r eqn:Hr; revert Hr
  end;
  unfold run, imgDownscale; unfold_ops;
  rewrite bind_log; red_state;
  let Himg := fresh "Himg" in
  destruct (isImage _) eqn:Himg; cbn [negb]; cbv iota;
  [ let Hdir := fresh "Hdir" in
    destruct (endsWith (fileDir _) "/upload") eqn:Hdir; cbn [negb]; cbv iota;
    [ repeat step | rewrite bind_log ]
  | rewrite bind_log ];
  unfold ret; intros ->; red_state.

Ltac names :=
  unfold published, deleted, temp_files_removed, original, artifact,
    downloadCall, sizeOfCall, resizeCall, copyCall, uploadCall, signCall,
    deleteCall in *.

(** Membership in a trace that is written out: [elem_here] finds the
    event, [elem_cases] splits a hypothesis into the positions the event
    can be at, dropping those of another kind. *)
Ltac elem_here :=
  solve [repeat first [apply list_elem_of_here | apply list_elem_of_further]].

Lemma elem_of_cases {A} (x : A) (l : list A) :
  x ∈ l -> foldr (λ y P, x = y ∨ P) False l.
Proof.
  induction l as [|y l IH]; simpl; [by intros ?%elem_of_nil|].
  intros [->|?]%elem_of_cons; [by left | right; auto].
Qed.

(** The events that pass a test are found by running the test over the
    trace, which is faster than going through the positions. *)
Lemma elem_of_passing (P : Event -> bool) (x : Event) (tr : list Event) :
  x ∈ tr -> P x = true -> x ∈ List.filter P tr.
Proof.
  intros Hx HP. apply list_elem_of_In, filter_In.
  split; [by apply list_elem_of_In | done].
Qed.

Ltac kind_of c :=
  lazymatch c with
  | CMkdirp _ => constr:(KMkdirp)
  | CDownload _ _ _ => constr:(KDownload)
  | CStatSync _ => constr:(KStatSync)
  | CSizeOf _ => constr:(KSizeOf)
  | CSpawn _ _ => constr:(KTransform)
  | CCopyFileSync _ _ => constr:(KTransform)
  | CUpload _ _ _ => constr:(KUpload)
  | CGetSignedUrl _ _ => constr:(KGetSignedUrl)
  | CUnlinkSync _ => constr:(KUnlinkSync)
  | CDelete _ _ => constr:(KDelete)
  | CDoc _ => constr:(KDoc)
  | CUpdate _ _ _ => constr:(KUpdate)
  end.

Ltac narrow_to P H :=
  apply (elem_of_passing P) in H; [|reflexivity];
  cbv [List.filter is_kind call_of is_failed] in H.

Ltac narrow H :=
  lazymatch type of H with
  | Done ?c ∈ _ =>
      let k := kind_of c in narrow_to (λ e, is_kind k (call_of e)) H
  | Failed ?c ∈ _ =>
      first [ let k := kind_of c in narrow_to (λ e, is_kind k (call_of e)) H
            | narrow_to is_failed H ]
  end.

Ltac elem_cases H :=
  try narrow H;
  apply elem_of_cases in H; cbn [foldr] in H;
  repeat (destruct H as [H|H]; [try discriminate H|]);
  try (lazymatch type of H with False => destruct H end).

Ltac attempted_here :=
  unfold attempted; first [left; elem_here | right; elem_here].

Ltac never_attempted :=
  let H := fresh in
  unfold attempted; intros [H|H]; elem_cases H.

(** The usual shapes of a conjunct about the written-out trace of one
    case: a call that was not made, a call that follows from an event of
    the trace, and a fact about the world that an event of the trace
    entitles to ([tac] proves it when the event is there). *)
Ltac trace_goal tac :=
  lazymatch goal with
  | |- ¬ attempted _ _ => never_attempted
  | |- _ ∈ _ -> attempted _ _ =>
      let H := fresh in
      intros H; first [attempted_here | solve [elem_cases H]]
  | |- attempted _ _ -> _ =>
      let H := fresh in
      unfold attempted at 1;
      intros [H|H]; first [solve [elem_cases H] | clear H; tac]
  | |- _ ∈ _ -> _ =>
      let H := fresh in
      intros H; first [solve [elem_cases H] | clear H; tac]
  | |- _ => tac
  end.

Ltac split_goal :=
  repeat match goal with
         | |- _ ∧ _ => split
         | |- ∀ cmd args, ¬ attempted _ _ => intros ? ?
         | |- ∀ p f v, ¬ attempted _ _ => intros ? ? ?
         end.

Lemma before_later a b e tr : before a b tr -> before a b (e :: tr).
Proof. intros (l1 & l2 & l3 & ->). by exists (e :: l1), l2, l3. Qed.

Lemma before_here a b tr : b ∈ tr -> before a b (a :: tr).
Proof.
  intros (l2 & l3 & ->)%list_elem_of_split. by exists [], l2, l3.
Qed.

(** [before a b tr] for a trace that is written out and holds [a]. *)
Ltac before_solver :=
  solve [repeat first [apply before_here; elem_here | apply before_later]].

Ltac before_call_solver :=
  unfold before_call; first [left; before_solver | right; before_solver].

(** ** The string, path and date functions on the values their
    documentation gives *)

Example dirname_values :
  map dirname ["files/u1/assets/upload/pic.png"; ""; "/"; "//a"; "/a"; "a";
               "a/b/"; "a//b"; "/a/b//"]
  = ["files/u1/assets/upload"; "."; "/"; "//"; "/"; "."; "a"; "a/"; "/a"].
Proof. reflexivity. Qed.

Example basename_values :
  map basename ["files/u1/assets/upload/pic.png"; ""; "/"; "a/b/"; "a//b"; "///"]
  = ["pic.png"; ""; ""; "b"; "b"; ""].
Proof. reflexivity. Qed.

Example normalize_values :
  map normalize ["/foo/bar//baz/asdf/quux/.."; "a/../../b/./c/"; ""; "./";
                 "/.."; "../.."; "a/.."; "a/../"; "/a/.."]
  = ["/foo/bar/baz/asdf"; "../b/c/"; "."; "./"; "/"; "../.."; "."; "./"; "/"].
Proof. reflexivity. Qed.

Example join_values :
  join "/tmp" "files/u1/assets/upload/pic.png"
    = "/tmp/files/u1/assets/upload/pic.png" ∧
  join "/foo" "" = "/foo" ∧ join "" "" = "." ∧ join "a" "../../b" = "../b".
Proof. repeat split. Qed.

Example replace_first_only :
  replace "a/upload/b/upload/c" "upload/" "images/" = "a/images/b/upload/c".
Proof. reflexivity. Qed.

Example toISOString_values :
  map toISOString [0; 1700000000000; -1; 951782400000; 1709210096789;
                   253402300800000; -62198755200000]
  = ["1970-01-01T00:00:00.000Z"; "2023-11-14T22:13:20.000Z";
     "1969-12-31T23:59:59.999Z"; "2000-02-29T00:00:00.000Z";
     "2024-02-29T12:34:56.789Z"; "+010000-01-01T00:00:00.000Z";
     "-000001-01-01T00:00:00.000Z"].
Proof. vm_compute. reflexivity. Qed.

Lemma quiet_two l1 m1 a1 l2 m2 a2 :
  quiet [Done (CLog l1 m1 a1); Done (CLog l2 m2 a2)].
Proof. repeat constructor; eexists _, _, _; reflexivity. Qed.

(** ** Facts about the string and path functions *)

Section PathFacts.

Lemma startsWith_l_app_l p q s :
  startsWith_l (p ++ q) s = true -> startsWith_l p s = true.
Proof.
  revert s. induction p as [|a p IH]; intros [|b s]; simpl; try done.
  intros [-> H]%andb_true_iff. rewrite (IH _ H). reflexivity.
Qed.

Lemma endsWith_upload_dir s :
  endsWith s "/upload" = true -> endsWith s "upload" = true.
Proof.
  unfold endsWith, endsWith_l.
  change (rev (of_string "/upload"))
    with (rev (of_string "upload") ++ ["/"%char]).
  apply startsWith_l_app_l.
Qed.

Lemma of_to_string l : of_string (to_string l) = l.
Proof. apply list_ascii_of_string_of_list_ascii. Qed.

Lemma of_string_app a b : of_string (a +:+ b) = of_string a ++ of_string b.
Proof. induction a as [|c a IH]; simpl; [done|]. by rewrite <- IH. Qed.

Lemma takeWhile_Forall f l : Forall (λ c, f c = true) (takeWhile f l).
Proof.
  induction l as [|c l IH]; simpl; [constructor|].
  destruct (f c) eqn:E; constructor; done.
Qed.

Lemma takeWhile_app_all f l k :
  Forall (λ c, f c = true) l -> takeWhile f (l ++ k) = l ++ takeWhile f k.
Proof.
  induction 1 as [|c l Hc _ IH]; simpl; [done|]. by rewrite Hc, IH.
Qed.

Lemma no_slash_not_slash l :
  no_slash l <-> Forall (λ c, not_slash c = true) l.
Proof.
  unfold no_slash, not_slash. apply Forall_iff. intros c.
  destruct (is_slash c); simpl; split; congruence.
Qed.

Lemma no_slash_rev l : no_slash l -> no_slash (rev l).
Proof. apply Forall_rev. Qed.

Lemma no_slash_basename p : no_slash (basename_l p).
Proof.
  unfold basename_l. apply no_slash_rev, no_slash_not_slash, takeWhile_Forall.
Qed.

Lemma last_seg_app x n : no_slash n -> last_seg (x ++ n) = last_seg x ++ n.
Proof.
  intros Hn. unfold last_seg. rewrite rev_app_distr, takeWhile_app_all.
  - by rewrite rev_app_distr, rev_involutive.
  - by apply no_slash_not_slash, no_slash_rev.
Qed.

Lemma takeWhile_dropWhile_le l :
  (length (takeWhile not_slash l)
   ≤ length (takeWhile not_slash (dropWhile is_slash l)))%nat.
Proof.
  destruct l as [|c l]; cbn [takeWhile dropWhile]; [done|].
  unfold not_slash at 1.
  destruct (is_slash c) eqn:E; cbn [negb length]; [lia|].
  change (takeWhile not_slash (c :: l))
    with (if not_slash c then c :: takeWhile not_slash l else []).
  unfold not_slash at 2. rewrite E. done.
Qed.

Lemma last_seg_basename p :
  (length (last_seg p) ≤ length (basename_l p))%nat.
Proof.
  unfold last_seg, basename_l. rewrite !length_rev.
  apply takeWhile_dropWhile_le.
Qed.

(** *** [replace] leaves a slash-free tail alone *)

Lemma eqc_eq a b : eqc a b = true -> a = b.
Proof. apply Ascii.eqb_eq. Qed.

Lemma startsWith_l_prefix p s :
  startsWith_l p s = true -> s = p ++ drop (length p) s.
Proof.
  revert s. induction p as [|a p IH]; intros [|b s]; simpl; try done.
  intros [Hab H]%andb_true_iff. apply eqc_eq in Hab as ->.
  f_equal. by apply IH.
Qed.

Lemma no_slash_no_match pat' n :
  no_slash n -> startsWith_l (pat' ++ ["/"%char]) n = false.
Proof.
  intros Hn. destruct (startsWith_l _ n) eqn:E; [|done].
  apply startsWith_l_prefix in E. rewrite E in Hn.
  rewrite <- app_assoc in Hn.
  apply Forall_app in Hn as [_ Hn]. by inversion Hn.
Qed.

Lemma replace_no_slash pat' rep n :
  no_slash n -> replace_l (pat' ++ ["/"%char]) rep n = n.
Proof.
  induction 1 as [|c n Hc Hn IH].
  - simpl. by rewrite no_slash_no_match by constructor.
  - cbn [replace_l]. rewrite no_slash_no_match by (by constructor).
    by rewrite IH.
Qed.

Lemma replace_keeps_name pat' rep w n :
  no_slash n -> ∃ y, replace_l (pat' ++ ["/"%char]) rep (w ++ n) = y ++ n.
Proof.
  intros Hn. induction w as [|c w [y IH]].
  - exists []. by apply replace_no_slash.
  - change ((c :: w) ++ n) with (c :: w ++ n). cbn [replace_l].
    destruct (startsWith_l _ (c :: w ++ n)) eqn:E.
    + exists (rep ++ drop (length (pat' ++ ["/"%char])) (c :: w)).
      rewrite <- app_assoc. f_equal.
      change (c :: w ++ n) with ((c :: w) ++ n).
      apply drop_app_le.
      destruct (decide (length (pat' ++ ["/"%char]) ≤ length (c :: w))%nat)
        as [|Hlt]; [done|exfalso].
      apply startsWith_l_prefix in E.
      assert (((c :: w) ++ n) !! length pat' = Some "/"%char) as Hl.
      { change ((c :: w) ++ n) with (c :: w ++ n). rewrite E.
        rewrite <- app_assoc. by apply list_lookup_middle. }
      rewrite length_app in Hlt. simpl in Hlt.
      rewrite lookup_app_r in Hl by (simpl; lia).
      eapply Forall_lookup_1 in Hn; [|exact Hl]. done.
    + exists (c :: y). by rewrite IH.
Qed.

(** *** [normalize] leaves a plain last segment in place *)

Lemma segments_nonempty s : segments s ≠ [].
Proof.
  destruct s as [|c s]; simpl; [done|].
  destruct (is_slash c); [done|]. by destruct (segments s).
Qed.

Lemma segments_no_slash n : no_slash n -> segments n = [n].
Proof.
  induction 1 as [|c n Hc _ IH]; simpl; [done|]. by rewrite Hc, IH.
Qed.

Lemma segments_app_slash v n :
  segments (v ++ "/"%char :: n) = segments v ++ segments n.
Proof.
  induction v as [|c v IH]; simpl; [done|].
  destruct (is_slash c); [by rewrite IH|].
  rewrite IH. pose proof (segments_nonempty v).
  by destruct (segments v).
Qed.

Lemma segments_dirpart w n :
  dirpart w -> no_slash n -> ∃ s, segments (w ++ n) = s ++ [n].
Proof.
  intros [-> | [v ->]] Hn.
  - exists []. by apply segments_no_slash.
  - exists (segments v). rewrite <- app_assoc. simpl.
    by rewrite segments_app_slash, (segments_no_slash n).
Qed.

Lemma norm_step_plain allow stack n :
  plain n -> norm_step allow stack n = n :: stack.
Proof.
  intros (_ & H1 & H2 & H3). unfold norm_step, chars_eqb.
  by rewrite !bool_decide_eq_false_2.
Qed.

Lemma unsegments_snoc r n :
  ∃ p, unsegments (r ++ [n]) = p ++ n ∧ dirpart p.
Proof.
  induction r as [|seg r (p & IH & Hp)].
  - exists []. split; [done | by left].
  - exists (seg ++ "/"%char :: p). split.
    + simpl. rewrite IH. destruct (r ++ [n]) eqn:E.
      * by destruct r.
      * by rewrite <- app_assoc.
    + right. destruct Hp as [-> | [v ->]].
      * by exists seg.
      * exists (seg ++ "/"%char :: v). by rewrite <- app_assoc.
Qed.

Lemma trailingSeparator_plain w n :
  plain n -> trailingSeparator (w ++ n) = false.
Proof.
  intros (Hn & Hne & _). unfold trailingSeparator.
  rewrite rev_app_distr. apply no_slash_rev in Hn.
  destruct (rev n) as [|c r] eqn:E.
  - apply (f_equal (@rev _)) in E. rewrite rev_involutive in E. done.
  - simpl. by inversion Hn.
Qed.

Lemma normalize_l_unfold p :
  p ≠ [] ->
  normalize_l p =
    let q := normalizeString p (negb (hasRoot p)) in
    match q with
    | [] => if hasRoot p then ["/"%char]
            else if trailingSeparator p then ["."%char; "/"%char] else dot
    | _ =>
        let q' := if trailingSeparator p then q ++ ["/"%char] else q in
        if hasRoot p then "/"%char :: q' else q'
    end.
Proof. by destruct p. Qed.

Lemma normalize_keeps_name w n :
  dirpart w -> plain n ->
  ∃ w', normalize_l (w ++ n) = w' ++ n ∧ dirpart w'.
Proof.
  intros Hw Hn.
  destruct (segments_dirpart w n Hw (proj1 Hn)) as [s Hs].
  destruct (unsegments_snoc
              (rev (foldl (norm_step (negb (hasRoot (w ++ n)))) [] s)) n)
    as (p & Hp & Hdp).
  assert (normalizeString (w ++ n) (negb (hasRoot (w ++ n))) = p ++ n) as Hq.
  { unfold normalizeString. rewrite Hs, foldl_app. simpl.
    rewrite norm_step_plain by done. simpl. exact Hp. }
  assert (normalize_l (w ++ n)
          = if hasRoot (w ++ n) then "/"%char :: p ++ n else p ++ n) as ->.
  { assert (n ≠ []) as Hne by apply Hn.
    rewrite normalize_l_unfold by (by destruct w, n).
    cbv zeta. rewrite Hq, trailingSeparator_plain by done.
    destruct (p ++ n) eqn:E'; [by destruct p, n | done]. }
  destruct (hasRoot (w ++ n)).
  - exists ("/"%char :: p). split; [done|]. right.
    destruct Hdp as [-> | [v ->]]; [by exists [] | by exists ("/"%char :: v)].
  - by exists p.
Qed.

Lemma join_l_unfold d n :
  n ≠ [] ->
  join_l d n =
    normalize_l (match d with [] => [] | _ => d ++ ["/"%char] end ++ n).
Proof.
  intros Hn. destruct d as [|a d], n as [|c n]; try done.
  unfold join_l. by rewrite <- app_assoc.
Qed.

Lemma join_keeps_name d n :
  plain n -> ∃ w', join_l d n = w' ++ n ∧ dirpart w'.
Proof.
  intros Hn. rewrite join_l_unfold by apply Hn.
  apply normalize_keeps_name; [|done].
  destruct d; [by left | right; by eexists].
Qed.

(** *** The timestamp has no slash *)

Lemma digit_iso d : iso_char (digit d) = true.
Proof.
  destruct d as [|p|p]; [done| |done].
  do 4 (try destruct p as [p|p|]); done.
Qed.

Lemma pad_iso k n : Forall (λ c, iso_char c = true) (pad k n).
Proof.
  revert n. induction k as [|k IH]; intros n; simpl; [constructor|].
  apply Forall_app. split; [apply IH|].
  constructor; [apply digit_iso | constructor].
Qed.

Lemma toISOString_iso t : Forall (λ c, iso_char c = true) (toISOString_l t).
Proof.
  unfold toISOString_l, year_chars. destruct (civil _) as [[y m] d].
  repeat first
    [ apply pad_iso
    | apply Forall_nil_2
    | apply Forall_app; split
    | apply Forall_cons; split; [reflexivity|]
    | match goal with |- context [if ?b then _ else _] => destruct b end ].
Qed.

Lemma iso_char_cases c :
  iso_char c = true -> c ∈ of_string "0123456789-+T:.Z".
Proof.
  unfold iso_char. intros (x & Hin & ->%eqc_eq)%existsb_exists.
  by apply list_elem_of_In.
Qed.

Lemma iso_char_not_slash c : iso_char c = true -> is_slash c = false.
Proof.
  intros H%iso_char_cases. cbn in H.
  repeat (apply elem_of_cons in H as [->|H]; [reflexivity|]).
  by apply elem_of_nil in H.
Qed.

Lemma iso_char_not_underscore c : iso_char c = true -> c ≠ "_"%char.
Proof.
  intros H%iso_char_cases. cbn in H.
  repeat (apply elem_of_cons in H as [->|H]; [discriminate|]).
  by apply elem_of_nil in H.
Qed.

Lemma toISOString_no_slash t : no_slash (toISOString_l t).
Proof.
  eapply Forall_impl; [apply toISOString_iso|]. apply iso_char_not_slash.
Qed.

Lemma toISOString_no_underscore t :
  Forall (λ c, c ≠ "_"%char) (toISOString_l t).
Proof.
  eapply Forall_impl; [apply toISOString_iso|]. apply iso_char_not_underscore.
Qed.

Lemma name_plain t base :
  no_slash base -> plain (toISOString_l t ++ "_"%char :: base).
Proof.
  intros Hb.
  assert ("_"%char ∈ toISOString_l t ++ "_"%char :: base) as Hin
    by (apply elem_of_app; right; left).
  split_and!.
  - apply Forall_app. split; [apply toISOString_no_slash|].
    by constructor.
  - by destruct (toISOString_l t).
  - intros E. rewrite E in Hin. by apply list_elem_of_singleton in Hin.
  - intros E. rewrite E in Hin.
    by apply elem_of_cons in Hin as [|?%list_elem_of_singleton].
Qed.

End PathFacts.

(** The characters of the destination key: something, then the new file
    name made of the timestamp, an underscore and the base name. *)
Lemma bucketFilePath_chars env object :
  ∃ y, of_string (bucketFilePath env object)
       = y ++ toISOString_l (now env) ++ "_"%char
              :: basename_l (of_string (filePath object)).
Proof.
  set (n := toISOString_l (now env) ++ "_"%char
              :: basename_l (of_string (filePath object))).
  assert (plain n) as Hn by apply name_plain, no_slash_basename.
  destruct (join_keeps_name (of_string (fileDir object)) n Hn)
    as (w1 & Hw1 & Hd1).
  destruct (normalize_keeps_name w1 n Hd1 Hn) as (w2 & Hw2 & _).
  destruct (replace_keeps_name (of_string "upload") (of_string "images/")
              w2 n (proj1 Hn)) as [y Hy].
  exists y.
  unfold bucketFilePath, replace, scaledFilePath, normalize, join,
    baseFileName, basename, toISOString.
  rewrite !of_to_string, !of_string_app, !of_to_string.
  change (of_string "_" ++ ?b) with ("_"%char :: b).
  fold n. rewrite Hw1, Hw2. exact Hy.
Qed.

(** The destination key differs from the key of the original, so the
    upload never overwrites the object it was made from. *)
Lemma bucketFilePath_fresh env object :
  bucketFilePath env object ≠ filePath object.
Proof.
  intros E. destruct (bucketFilePath_chars env object) as [y Hy].
  rewrite E in Hy.
  pose proof (last_seg_basename (of_string (filePath object))) as Hle.
  rewrite Hy in Hle at 1.
  rewrite last_seg_app in Hle
    by (apply name_plain, no_slash_basename).
  rewrite !length_app in Hle. simpl in Hle. lia.
Qed.

(** ** Distinct runs, distinct destination keys *)

Lemma drop_snoc_slash k (u : chars) :
  drop k (u ++ ["/"%char]) = [] ∨ ∃ z, drop k (u ++ ["/"%char]) = z ++ ["/"%char].
Proof.
  destruct (decide (k ≤ length u)%nat).
  - right. exists (drop k u). by apply drop_app_le.
  - left. apply drop_ge. rewrite length_app. simpl. lia.
Qed.

(** [replace] with a pattern and a replacement that both end in a slash
    keeps what stands before a slash-free name ending in a slash. *)
Lemma replace_keeps_slash pat' rep' v n :
  no_slash n ->
  ∃ y, replace_l (pat' ++ ["/"%char]) (rep' ++ ["/"%char])
         ((v ++ ["/"%char]) ++ n) = (y ++ ["/"%char]) ++ n.
Proof.
  intros Hn. induction v as [|c v [y IH]].
  - cbn [app replace_l].
    destruct (startsWith_l _ ("/"%char :: n)) eqn:E.
    + apply startsWith_l_prefix in E. destruct pat' as [|a pat'].
      * by exists rep'.
      * exfalso. injection E as _ E. rewrite E in Hn.
        rewrite <- app_assoc in Hn.
        apply Forall_app in Hn as [_ Hn]. apply Forall_app in Hn as [Hn _].
        by inversion Hn.
    + exists []. by rewrite replace_no_slash.
  - change (((c :: v) ++ ["/"%char]) ++ n)
      with (c :: (v ++ ["/"%char]) ++ n).
    cbn [replace_l].
    destruct (startsWith_l _ (c :: (v ++ ["/"%char]) ++ n)) eqn:E.
    + assert (length (pat' ++ ["/"%char]) ≤ length ((c :: v) ++ ["/"%char]))%nat
        as Hle.
      { destruct (decide (length (pat' ++ ["/"%char])
                          ≤ length ((c :: v) ++ ["/"%char]))%nat)
          as [|Hlt]; [done|exfalso].
        apply startsWith_l_prefix in E.
        assert ((((c :: v) ++ ["/"%char]) ++ n) !! length pat'
                = Some "/"%char) as Hl.
        { change (((c :: v) ++ ["/"%char]) ++ n)
            with (c :: (v ++ ["/"%char]) ++ n).
          rewrite E, <- app_assoc. by apply list_lookup_middle. }
        rewrite lookup_app_r in Hl by (rewrite !length_app in *; simpl in *; lia).
        eapply Forall_lookup_1 in Hn; [|exact Hl]. done. }
      change (c :: (v ++ ["/"%char]) ++ n)
        with (((c :: v) ++ ["/"%char]) ++ n).
      rewrite drop_app_le by done.
      destruct (drop_snoc_slash (length (pat' ++ ["/"%char])) (c :: v))
        as [-> | [z ->]].
      * by exists rep'.
      * exists ((rep' ++ ["/"%char]) ++ z). by rewrite <- !app_assoc.
    + exists (c :: y). by rewrite IH.
Qed.

Lemma replace_keeps_dirpart pat' rep' w n :
  dirpart w -> no_slash n ->
  ∃ y, replace_l (pat' ++ ["/"%char]) (rep' ++ ["/"%char]) (w ++ n) = y ++ n
       ∧ dirpart y.
Proof.
  intros [-> | [v ->]] Hn.
  - exists []. split; [by apply replace_no_slash | by left].
  - destruct (replace_keeps_slash pat' rep' v n Hn) as [y Hy].
    exists (y ++ ["/"%char]). split; [done | right; by exists y].
Qed.

Lemma last_seg_dirpart y : dirpart y -> last_seg y = [].
Proof.
  intros [-> | [v ->]]; [done|].
  unfold last_seg. by rewrite rev_app_distr.
Qed.

(** The last segment of the destination key is the timestamped name. *)
Lemma bucketFilePath_last_seg env object :
  last_seg (of_string (bucketFilePath env object))
  = toISOString_l (now env) ++ "_"%char
      :: basename_l (of_string (filePath object)).
Proof.
  set (n := toISOString_l (now env) ++ "_"%char
              :: basename_l (of_string (filePath object))).
  assert (plain n) as Hn by apply name_plain, no_slash_basename.
  destruct (join_keeps_name (of_string (fileDir object)) n Hn)
    as (w1 & Hw1 & Hd1).
  destruct (normalize_keeps_name w1 n Hd1 Hn) as (w2 & Hw2 & Hd2).
  destruct (replace_keeps_dirpart (of_string "upload") (of_string "images")
              w2 n Hd2 (proj1 Hn)) as (y & Hy & Hdy).
  unfold bucketFilePath, replace, scaledFilePath, normalize, join,
    baseFileName, basename, toISOString.
  rewrite !of_to_string, !of_string_app, !of_to_string.
  change (of_string "_" ++ ?b) with ("_"%char :: b).
  fold n. rewrite Hw1, Hw2.
  change (of_string "upload/") with (of_string "upload" ++ ["/"%char]).
  change (of_string "images/") with (of_string "images" ++ ["/"%char]).
  rewrite Hy, last_seg_app, last_seg_dirpart by (done || apply Hn). done.
Qed.

Lemma stamp_name_inj (t1 t2 b1 b2 : chars) :
  Forall (λ c, c ≠ "_"%char) t1 -> Forall (λ c, c ≠ "_"%char) t2 ->
  t1 ++ "_"%char :: b1 = t2 ++ "_"%char :: b2 -> t1 = t2 ∧ b1 = b2.
Proof.
  intros H1. revert t2. induction H1 as [|c t1 Hc _ IH]; intros t2 H2 E.
  - destruct H2 as [|c' t2 Hc' _]; simpl in E; [by injection E|].
    injection E as E _. by subst.
  - destruct H2 as [|c' t2 Hc' H2]; simpl in E.
    + injection E as E _. by subst.
    + injection E as -> E. by destruct (IH t2 H2 E) as [-> ->].
Qed.

Lemma to_string_inj a b : to_string a = to_string b -> a = b.
Proof.
  intros E. apply (f_equal of_string) in E. by rewrite !of_to_string in E.
Qed.

(** Two runs that derive the same destination key have the same
    timestamp and the same base name: runs that differ in either write
    to different keys. *)
Lemma destination_keys_distinct env1 object1 env2 object2 :
  bucketFilePath env1 object1 = bucketFilePath env2 object2 ->
  toISOString (now env1) = toISOString (now env2) ∧
  baseFileName object1 = baseFileName object2.
Proof.
  intros E.
  pose proof (bucketFilePath_last_seg env1 object1) as H1.
  rewrite E, bucketFilePath_last_seg in H1.
  apply stamp_name_inj in H1 as [Ht Hb];
    [|apply toISOString_no_underscore..].
  unfold toISOString, baseFileName, basename. by rewrite Ht, Hb.
Qed.

(** ** The event filter *)

Lemma run_not_image env object w :
  isImage object = false -> skipped w (run env object w).
Proof.
  intros Himg. unfold skipped, run, imgDownscale.
  rewrite bind_log, Himg. cbn [negb]. rewrite bind_log. unfold ret. red_state.
  split_and!; [reflexivity | reflexivity | apply quiet_two].
Qed.

Lemma run_not_staged env object w :
  endsWith (fileDir object) "/upload" = false -> skipped w (run env object w).
Proof.
  intros Hdir. unfold skipped, run, imgDownscale. rewrite bind_log.
  destruct (isImage object); cbn [negb]; [rewrite Hdir; cbn [negb]|];
    rewrite bind_log; unfold ret; red_state;
    (split_and!; [reflexivity | reflexivity | apply quiet_two]).
Qed.

(** C5. An event whose contentType is absent or does not begin with
    "image/" makes the run return null at once: the world is unchanged
    and nothing but the logger is called. *)
Theorem skip_not_image env object w :
  (contentType object = None ∨
   ∃ ct, contentType object = Some ct ∧ startsWith ct "image/" = false) ->
  skipped w (run env object w).
Proof.
  intros Hct. apply run_not_image.
  unfold isImage. destruct Hct as [-> | (ct & -> & Hs)]; done.
Qed.

(** The "text/plain" scenario of the specification. *)
Lemma skip_not_image_witness :
  (contentType note = None ∨
   ∃ ct, contentType note = Some ct ∧ startsWith ct "image/" = false) ∧
  skipped (worldWith note small) (run reliable note (worldWith note small)).
Proof.
  assert (contentType note = None ∨
          ∃ ct, contentType note = Some ct ∧ startsWith ct "image/" = false)
    as H by (right; exists "text/plain"; split; reflexivity).
  split; [exact H | exact (skip_not_image reliable note _ H)].
Defined.

(** C6. An event whose object directory does not end in "upload" makes
    the run return null at once: the world is unchanged and nothing but
    the logger is called. *)
Theorem skip_outside_upload env object w :
  endsWith (dirname (default "" (name object))) "upload" = false ->
  skipped w (run env object w).
Proof.
  intros Hdir. apply run_not_staged.
  destruct (endsWith (fileDir object) "/upload") eqn:E; [|done].
  apply endsWith_upload_dir in E. unfold fileDir, filePath in E. congruence.
Qed.

(** The pipeline's own output, in the sibling "images" directory. *)
Lemma skip_outside_upload_witness :
  endsWith (dirname (default "" (name scaled))) "upload" = false ∧
  skipped (worldWith scaled small) (run reliable scaled (worldWith scaled small)).
Proof.
  split; [reflexivity | apply skip_outside_upload; reflexivity].
Defined.

(** C10. When the event has no name, the path is the empty string, whose
    directory "." does not end in "/upload", and the run ends in the
    filter: it returns null, the world is unchanged and nothing but the
    logger is called. *)
Theorem skip_absent_name env object w :
  name object = None ->
  filePath object = "" ∧ fileDir object = "." ∧
  endsWith (fileDir object) "/upload" = false ∧
  skipped w (run env object w).
Proof.
  intros Hname.
  assert (filePath object = "") as Hpath by (unfold filePath; rewrite Hname; done).
  assert (fileDir object = ".") as Hdir by (unfold fileDir; rewrite Hpath; done).
  split_and!; [done | done | rewrite Hdir; done |].
  apply run_not_staged. rewrite Hdir. reflexivity.
Qed.

Lemma skip_absent_name_witness :
  name nameless = None ∧
  filePath nameless = "" ∧ fileDir nameless = "." ∧
  endsWith (fileDir nameless) "/upload" = false ∧
  skipped (worldWith pic wide) (run reliable nameless (worldWith pic wide)).
Proof.
  split; [reflexivity | apply skip_absent_name; reflexivity].
Defined.

(** ** The transformer *)

Lemma original_not_artifact env object :
  original object ≠ artifact env object.
Proof.
  unfold original, artifact. intros [= E].
  by apply (bucketFilePath_fresh env object).
Qed.

(** C3. When the original decodes to a width of at most 1080 pixels, no
    process is spawned: past the reading of the dimensions the file is
    copied, and once uploaded, and so when the run completes, the
    artifact holds the very bytes of the original. *)
Theorem narrow_image_copied env object w b wd ht :
  storage w !! original object = Some b ->
  imageSize env b = Some (wd, ht) ->
  wd ≤ 1080 ->
  let st := snd (run env object w) in
  (∀ cmd args, ¬ attempted (CSpawn cmd args) (trace st)) ∧
  (Done (sizeOfCall env object) ∈ trace st ->
   attempted (copyCall env object) (trace st)) ∧
  (Done (uploadCall env object) ∈ trace st ->
   storage (world st) !! artifact env object = Some b) ∧
  (∀ res, fst (run env object w) = Value (Some res) ->
   storage (world st) !! artifact env object = Some b).
Proof.
  intros Hb Hsize Hwd st. subst st.
  pose proof (original_not_artifact env object) as Hne.
  names. run_cases.
  all: simplify_eq.
  all: try (apply Z.ltb_lt in Hwide; cbn [fst] in Hwide; lia).
  all: split_goal.
  all: lazymatch goal with
       | |- ∀ res, _ = _ -> _ =>
           let H := fresh in
           intros res H; first [discriminate H | clear H]
       | |- _ => trace_goal idtac
       end.
  all: rewrite ?lookup_delete_ne by done.
  all: by rewrite lookup_insert_eq.
Qed.

(** The 800 by 600 scenario of the specification. *)
Lemma narrow_image_copied_witness :
  storage (worldWith pic small) !! original pic = Some small ∧
  imageSize reliable small = Some (800, 600) ∧
  800 ≤ 1080 ∧
  Done (uploadCall reliable pic)
    ∈ trace (snd (run reliable pic (worldWith pic small))) ∧
  storage (world (snd (run reliable pic (worldWith pic small))))
    !! artifact reliable pic = Some small.
Proof.
  assert (storage (worldWith pic small) !! original pic = Some small)
    as H1 by (vm_compute; reflexivity).
  assert (imageSize reliable small = Some (800, 600))
    as H2 by (vm_compute; reflexivity).
  assert (800 ≤ 1080) as H3 by (vm_compute; discriminate).
  assert (Done (uploadCall reliable pic)
            ∈ trace (snd (run reliable pic (worldWith pic small))))
    as H4 by (vm_compute; elem_here).
  split_and!; [exact H1 | exact H2 | exact H3 | exact H4 |].
  exact (proj1 (proj2 (proj2 (narrow_image_copied reliable pic _ small 800 600
                                 H1 H2 H3))) H4).
Defined.

(** C2, as far as it holds. For an original that decodes to [wd] by
    [ht]: when [wd] exceeds 1080, the run, once past the reading of the
    dimensions, calls [convert] with [-resize x1080] and never copies,
    and once uploaded the artifact is what the resize made of the
    original, of height 1080 and of proportional width when ImageMagick
    does what it documents, so not wider than the original when [ht] is
    at least 1080; when [wd] is at most 1080 nothing is spawned and the
    artifact has the dimensions of the original. *)
Theorem resize_rule env object w b wd ht :
  storage w !! original object = Some b ->
  imageSize env b = Some (wd, ht) ->
  let st := snd (run env object w) in
  (1080 < wd ->
   (Done (sizeOfCall env object) ∈ trace st ->
    attempted (resizeCall env object) (trace st)) ∧
   ¬ attempted (copyCall env object) (trace st) ∧
   (Done (uploadCall env object) ∈ trace st ->
    ∃ b', resize env "x1080" b = Some b' ∧
          storage (world st) !! artifact env object = Some b' ∧
          (resizes_to_height_1080 env b wd ht ->
           ∃ wd', imageSize env b' = Some (wd', 1080) ∧
                  2 * Z.abs (wd' * ht - wd * 1080) ≤ ht ∧
                  (1080 ≤ ht -> wd' ≤ wd)))) ∧
  (wd ≤ 1080 ->
   (∀ cmd args, ¬ attempted (CSpawn cmd args) (trace st)) ∧
   (Done (uploadCall env object) ∈ trace st ->
    ∃ b', storage (world st) !! artifact env object = Some b' ∧
          imageSize env b' = Some (wd, ht))).
Proof.
  intros Hb Hsize st. subst st.
  pose proof (original_not_artifact env object) as Hne.
  names. run_cases.
  all: simplify_eq.
  all: try (apply Z.ltb_lt in Hwide; cbn [fst] in Hwide).
  all: try (apply Z.ltb_ge in Hwide; cbn [fst] in Hwide).
  all: split; intros Hwd; try lia.
  all: split_goal; trace_goal idtac.
  all: eexists; split_and!; try eassumption.
  all: rewrite ?lookup_delete_ne by done.
  all: rewrite ?lookup_insert_eq; try done.
  all: intros Hcontract.
  all: destruct (Hcontract _ ltac:(eassumption)) as (wd' & Hwd' & Hratio).
  all: exists wd'; split_and!; [done | done | intros Hht; nia].
Qed.

(** The 2000 by 1000 scenario of the specification. *)
Lemma resize_rule_witness :
  storage (worldWith pic wide) !! original pic = Some wide ∧
  imageSize reliable wide = Some (2000, 1000) ∧
  1080 < 2000 ∧
  resizes_to_height_1080 reliable wide 2000 1000 ∧
  attempted (resizeCall reliable pic)
    (trace (snd (run reliable pic (worldWith pic wide)))) ∧
  ∃ b', storage (world (snd (run reliable pic (worldWith pic wide))))
          !! artifact reliable pic = Some b' ∧
        imageSize reliable b' = Some (2160, 1080).
Proof.
  assert (storage (worldWith pic wide) !! original pic = Some wide)
    as H1 by (vm_compute; reflexivity).
  assert (imageSize reliable wide = Some (2000, 1000))
    as H2 by (vm_compute; reflexivity).
  assert (1080 < 2000) as H3 by (vm_compute; reflexivity).
  assert (resizes_to_height_1080 reliable wide 2000 1000) as H4.
  { intros b' Hb'. vm_compute in Hb'. injection Hb' as <-.
    exists 2160. split; [vm_compute; reflexivity | vm_compute; discriminate]. }
  assert (Done (sizeOfCall reliable pic)
            ∈ trace (snd (run reliable pic (worldWith pic wide))))
    as H5 by (vm_compute; elem_here).
  assert (Done (uploadCall reliable pic)
            ∈ trace (snd (run reliable pic (worldWith pic wide))))
    as H6 by (vm_compute; elem_here).
  destruct (proj1 (resize_rule reliable pic _ wide 2000 1000 H1 H2) H3)
    as (Hcall & _ & Hup).
  destruct (Hup H6) as (b' & Hres & Hart & Hdim).
  split_and!; [exact H1 | exact H2 | exact H3 | exact H4 | exact (Hcall H5) |].
  exists b'. split; [exact Hart|].
  vm_compute in Hres. injection Hres as <-. vm_compute. reflexivity.
Defined.

(** C2 as stated fails: the 2000 by 1000 picture of the specification's
    own scenario is published at 2160 by 1080, larger than it was, by a
    resizer that does what is documented. *)
Lemma never_upscaled_counterexample :
  resizes_to_height_1080 reliable wide 2000 1000 ∧
  ¬ never_upscaled reliable pic (worldWith pic wide).
Proof.
  split.
  - intros b' Hb'. vm_compute in Hb'. injection Hb' as <-.
    exists 2160. split; [vm_compute; reflexivity | vm_compute; discriminate].
  - intros H.
    destruct (H wide 2000 1000 (header 2160 1080) 2160 1080) as [Hw _];
      try (vm_compute; reflexivity).
    vm_compute in Hw. by apply Hw.
Qed.

(** ** The publisher *)

(** C1, as far as it holds. The delete of the original is called only
    after the upload of the artifact and the signing of its URL have
    completed; the original is deleted exactly when that call completes;
    when the upload or the signing did not complete the original is
    still in the bucket, unchanged; and after both, the original is
    deleted unless the run ends with the failure of one of the two
    unlinks or of the delete itself. *)
Theorem original_deleted_after_publish env object w :
  let st := snd (run env object w) in
  let tr := trace st in
  (attempted (deleteCall object) tr ->
   published env object tr ∧
   before_call (Done (uploadCall env object)) (deleteCall object) tr ∧
   before_call (Done (signCall env object)) (deleteCall object) tr) ∧
  (deleted object w st <-> Done (deleteCall object) ∈ tr) ∧
  (¬ published env object tr ->
   storage (world st) !! original object = storage w !! original object) ∧
  (published env object tr ->
   Done (deleteCall object) ∈ tr ∨
   fst (run env object w)
     = Thrown (Rejected (CUnlinkSync (tempLocalScaledFile env object))) ∨
   fst (run env object w)
     = Thrown (Rejected (CUnlinkSync (tempLocalFile env object))) ∨
   fst (run env object w) = Thrown (Rejected (deleteCall object))).
Proof.
  intros st tr. subst st tr.
  pose proof (original_not_artifact env object) as Hne.
  assert (artifact env object ≠ original object) as Hne' by done.
  names. run_cases.
  all: split_and!.
  all: lazymatch goal with
       | |- attempted _ _ -> _ =>
           trace_goal
             ltac:(split_and!;
                   [elem_here | elem_here | before_call_solver ..])
       | |- _ <-> _ =>
           split;
           [ intros [[? Hsome] Hnone];
             first [ elem_here
                   | exfalso; rewrite ?lookup_insert_ne in Hnone by done;
                     congruence ]
           | let H := fresh in
             intros H;
             first [ solve [elem_cases H]
                   | split; [eauto | by rewrite lookup_delete_eq] ] ]
       | |- ¬ _ -> _ =>
           let H := fresh in
           intros H;
           first [ by rewrite ?lookup_insert_ne by done
                 | exfalso; apply H; split; elem_here ]
       | |- _ ∧ _ -> _ =>
           let Hup := fresh in
           let Hsg := fresh in
           intros [Hup Hsg];
           first [ left; elem_here
                 | solve [elem_cases Hup]
                 | solve [elem_cases Hsg]
                 | right; left; reflexivity
                 | right; right; left; reflexivity
                 | right; right; right; reflexivity ]
       end.
Qed.

(** The 2000 by 1000 scenario: everything completes, the original is
    deleted. *)
Lemma original_deleted_after_publish_witness :
  published reliable pic (trace (snd (run reliable pic (worldWith pic wide)))) ∧
  deleted pic (worldWith pic wide) (snd (run reliable pic (worldWith pic wide))).
Proof.
  destruct (original_deleted_after_publish reliable pic (worldWith pic wide))
    as (_ & Hiff & _ & Hprog).
  assert (published reliable pic
            (trace (snd (run reliable pic (worldWith pic wide))))) as Hp
    by (split; vm_compute; elem_here).
  split; [exact Hp|]. apply Hiff.
  destruct (Hprog Hp) as [Hdel | [E | [E | E]]];
    [exact Hdel | vm_compute in E; discriminate E ..].
Defined.

(** C1 as stated fails: when the delete request itself is refused, the
    artifact is uploaded and signed and the original is still there. *)
Lemma deleted_iff_published_counterexample :
  ¬ deleted_iff_published deleteDenied pic (worldWith pic wide).
Proof.
  unfold deleted_iff_published. intros [_ H].
  destruct H as [_ Hnone]; [split; vm_compute; elem_here|].
  vm_compute in Hnone. discriminate Hnone.
Qed.

(** C7, as far as it holds. When the run returns, by a skip or on
    completion, and also when it fails at or after the delete of the
    original, no local file it created is left on the disk. *)
Theorem temp_files_removed_on_return env object w :
  returned (fst (run env object w)) ∨
  attempted (deleteCall object) (trace (snd (run env object w))) ->
  temp_files_removed env object (snd (run env object w)).
Proof.
  names. run_cases.
  all: intros [[a Ha]|Hatt];
    [try discriminate Ha | try (revert Hatt; never_attempted)].
  all: split.
  all: lazymatch goal with
       | |- _ ∨ _ -> _ =>
           let H := fresh in
           intros [H|H];
           first [ solve [elem_cases H]
                 | destruct (decide (tempLocalFile env object
                                     = tempLocalScaledFile env object))
                     as [->|];
                   [ by rewrite lookup_delete_eq
                   | by rewrite lookup_delete_ne, lookup_delete_eq ] ]
       | |- _ =>
           trace_goal ltac:(by rewrite lookup_delete_eq)
       end.
Qed.

(** The 800 by 600 scenario: the run completes and the disk is empty
    again. *)
Lemma temp_files_removed_on_return_witness :
  (returned (fst (run reliable pic (worldWith pic small))) ∨
   attempted (deleteCall pic)
     (trace (snd (run reliable pic (worldWith pic small))))) ∧
  temp_files_removed reliable pic (snd (run reliable pic (worldWith pic small))).
Proof.
  assert (returned (fst (run reliable pic (worldWith pic small))) ∨
          attempted (deleteCall pic)
            (trace (snd (run reliable pic (worldWith pic small))))) as H
    by (left; eexists; vm_compute; reflexivity).
  split; [exact H | exact (temp_files_removed_on_return reliable pic _ H)].
Defined.

(** C7 as stated fails: when the upload is refused the run ends with an
    error and the downloaded file is still on the disk. *)
Lemma temp_files_removed_counterexample :
  ¬ temp_files_removed uploadRefused pic
      (snd (run uploadRefused pic (worldWith pic small))).
Proof.
  intros [H _].
  assert (Done (downloadCall uploadRefused pic)
            ∈ trace (snd (run uploadRefused pic (worldWith pic small))))
    as Hd by (vm_compute; elem_here).
  specialize (H Hd). vm_compute in H. discriminate H.
Qed.

(** C8, as far as it holds. Without a messageOrigin no document update
    is attempted and the documents are as they were, but the run does
    not complete: once the original is deleted it ends with the error
    raised by reading the key or by the document reference. *)
Theorem no_origin_no_completion env object w :
  originOf object = None ->
  (∀ p f v, ¬ attempted (CUpdate p f v) (trace (snd (run env object w)))) ∧
  firestore (world (snd (run env object w))) = firestore w ∧
  (∀ res, fst (run env object w) ≠ Value (Some res)) ∧
  (Done (deleteCall object) ∈ trace (snd (run env object w)) ->
   fst (run env object w) = Thrown TypeError ∨
   fst (run env object w) = Thrown (Rejected (CDoc None))).
Proof.
  intros Horig. unfold originOf in Horig.
  names. run_cases.
  all: try rewrite Hmeta in Horig.
  all: try congruence.
  all: split_goal.
  all: lazymatch goal with
       | |- ¬ attempted _ _ => never_attempted
       | |- firestore _ = _ => reflexivity
       | |- ∀ res, _ ≠ _ => intros res; discriminate
       | |- _ -> _ ∨ _ =>
           trace_goal ltac:(first [by left | by right | rewrite Horig; by right])
       end.
Qed.

(** The picture of the scenario, uploaded without a messageOrigin. *)
Lemma no_origin_no_completion_witness :
  originOf anonymous = None ∧
  Done (deleteCall anonymous)
    ∈ trace (snd (run reliable anonymous (worldWith anonymous wide))) ∧
  fst (run reliable anonymous (worldWith anonymous wide))
    = Thrown (Rejected (CDoc None)).
Proof.
  assert (originOf anonymous = None) as H by reflexivity.
  assert (Done (deleteCall anonymous)
            ∈ trace (snd (run reliable anonymous (worldWith anonymous wide))))
    as Hd by (vm_compute; elem_here).
  split_and!; [exact H | exact Hd |].
  destruct (proj2 (proj2 (proj2 (no_origin_no_completion reliable anonymous
                                   (worldWith anonymous wide) H))) Hd)
    as [E|E]; [|exact E].
  vm_compute in E. discriminate E.
Defined.

(** C8 as stated fails: the picture uploaded without a messageOrigin is
    processed up to the deletion of the original, and then the run ends
    with an error instead of completing. *)
Lemma completes_without_origin_counterexample :
  originOf anonymous = None ∧
  Done (uploadCall reliable anonymous)
    ∈ trace (snd (run reliable anonymous (worldWith anonymous wide))) ∧
  ¬ completes_without_origin reliable anonymous (worldWith anonymous wide).
Proof.
  split_and!; [reflexivity | vm_compute; elem_here |].
  intros [_ [res Hres]]. vm_compute in Hres. discriminate Hres.
Qed.

(** C9. The trace of a run has at most one document update; an update
    that is attempted sets the field [resource] of the document named by
    messageOrigin to the signed URL, after the signing has completed;
    and when the run completes, the result carries that URL and the
    document has it in its [resource] field. *)
Theorem origin_updated_once env object w :
  (length (List.filter is_update (trace (snd (run env object w)))) ≤ 1)%nat ∧
  (∀ p f v, attempted (CUpdate p f v) (trace (snd (run env object w))) ->
     originOf object = Some p ∧ f = "resource" ∧
     v = signedUrl env (bucket object) (bucketFilePath env object) ∧
     before_call (Done (signCall env object)) (CUpdate p f v)
       (trace (snd (run env object w)))) ∧
  (∀ res, fst (run env object w) = Value (Some res) ->
     url res = signedUrl env (bucket object) (bucketFilePath env object) ∧
     originalMetadata res = default ∅ (metadata object) ∧
     ∃ p fields,
       originOf object = Some p ∧
       firestore (world (snd (run env object w))) !! p = Some fields ∧
       fields !! "resource" = Some (url res)).
Proof.
  unfold originOf. names. run_cases.
  all: split_and!.
  all: lazymatch goal with
       | |- (_ ≤ _)%nat => cbv [List.filter is_update length]; lia
       | |- ∀ p f v, attempted _ _ -> _ =>
           let H := fresh in
           intros ? ? ? [H|H]; elem_cases H;
           injection H as -> -> ->;
           split_and!; try done; before_call_solver
       | |- ∀ res, _ = _ -> _ =>
           let H := fresh in
           intros res H;
           first [ discriminate H
                 | injection H as <-; cbn [url originalMetadata];
                   split_and!; try done;
                   eexists _, _;
                   split_and!;
                   [ reflexivity | apply lookup_insert_eq
                   | apply lookup_insert_eq ] ]
       end.
Qed.

(** The 2000 by 1000 scenario: "msgs/m1" gets the URL of the result. *)
Lemma origin_updated_once_witness :
  let res :=
    {| originalMetadata := {[ "messageOrigin" := "msgs/m1" ]};
       url := toyUrl "app.appspot.com"
                "files/u1/assets/images/2023-11-14T22:13:20.000Z_pic.png" |} in
  fst (run reliable pic (worldWith pic wide)) = Value (Some res) ∧
  ∃ p fields,
    originOf pic = Some p ∧
    firestore (world (snd (run reliable pic (worldWith pic wide))))
      !! p = Some fields ∧
    fields !! "resource" = Some (url res).
Proof.
  intros res.
  assert (fst (run reliable pic (worldWith pic wide)) = Value (Some res))
    as Hres by (vm_compute; reflexivity).
  split; [exact Hres|].
  exact (proj2 (proj2 (proj2 (proj2 (origin_updated_once reliable pic
                                       (worldWith pic wide))) res Hres))).
Defined.


(** ** Completion *)


(** ** The destination key *)

(** On the path of the specification's scenario the key of the code is
    the key the specification describes. *)
Example destination_of_pic :
  bucketFilePath reliable pic
    = "files/u1/assets/images/2023-11-14T22:13:20.000Z_pic.png" ∧
  destinationKeySpec reliable pic = bucketFilePath reliable pic.
Proof. split; vm_compute; reflexivity. Qed.

(** C4 fails on the code. [replace] rewrites the first "upload/" of the
    path, which is not the staging directory when an earlier segment
    ends in "upload": for the picture of user "team-upload" the artifact
    is uploaded under "files/team-images/assets/upload/", not under
    "files/team-upload/assets/images/" as the specification's derivation
    gives, and the event of that artifact passes the filter again. *)
Theorem first_upload_replaced :
  filePath teamPic = "files/team-upload/assets/upload/pic.png" ∧
  bucketFilePath reliable teamPic
    = "files/team-images/assets/upload/2023-11-14T22:13:20.000Z_pic.png" ∧
  destinationKeySpec reliable teamPic
    = "files/team-upload/assets/images/2023-11-14T22:13:20.000Z_pic.png" ∧
  Done (uploadCall reliable teamPic)
    ∈ trace (snd (run reliable teamPic (worldWith teamPic wide))) ∧
  (let again := event (bucketFilePath reliable teamPic) (Some "image/png") None in
   isImage again = true ∧ endsWith (fileDir again) "/upload" = true).
Proof.
  split_and!; [reflexivity | vm_compute; reflexivity ..| | ].
  - vm_compute; elem_here.
  - split; vm_compute; reflexivity.
Qed.

(** ** More on the destination key and on the filter *)

(** The destination key, as characters: a directory part and the
    timestamped name. *)
Lemma bucketFilePath_split env object :
  ∃ y, of_string (bucketFilePath env object)
       = y ++ toISOString_l (now env) ++ "_"%char
              :: basename_l (of_string (filePath object))
       ∧ dirpart y.
Proof.
  set (n := toISOString_l (now env) ++ "_"%char
              :: basename_l (of_string (filePath object))).
  assert (plain n) as Hn by apply name_plain, no_slash_basename.
  destruct (join_keeps_name (of_string (fileDir object)) n Hn)
    as (w1 & Hw1 & Hd1).
  destruct (normalize_keeps_name w1 n Hd1 Hn) as (w2 & Hw2 & Hd2).
  destruct (replace_keeps_dirpart (of_string "upload") (of_string "images")
              w2 n Hd2 (proj1 Hn)) as (y & Hy & Hdy).
  exists y. split; [|done].
  unfold bucketFilePath, replace, scaledFilePath, normalize, join,
    baseFileName, basename, toISOString.
  rewrite !of_to_string, !of_string_app, !of_to_string.
  change (of_string "_" ++ ?b) with ("_"%char :: b).
  fold n. rewrite Hw1, Hw2. exact Hy.
Qed.

Lemma dropWhile_none f l :
  Forall (λ c, f c = false) l -> dropWhile f l = l.
Proof. destruct 1 as [|c l Hc _]; simpl; [done|]. by rewrite Hc. Qed.

Lemma dropWhile_all f l :
  Forall (λ c, f c = true) l -> dropWhile f l = [].
Proof. induction 1 as [|c l Hc _ IH]; simpl; [done|]. by rewrite Hc. Qed.

Lemma basename_l_name y n :
  dirpart y -> no_slash n -> n ≠ [] -> basename_l (y ++ n) = n.
Proof.
  intros Hy Hn Hne. unfold basename_l. rewrite rev_app_distr.
  assert (dropWhile is_slash (rev n ++ rev y) = rev n ++ rev y) as ->.
  { apply no_slash_rev in Hn. destruct (rev n) as [|c r] eqn:E.
    - apply (f_equal (@rev _)) in E. by rewrite rev_involutive in E.
    - simpl. inversion Hn as [|? ? Hc _]. by rewrite Hc. }
  rewrite takeWhile_app_all
    by (by apply no_slash_not_slash, no_slash_rev).
  assert (takeWhile not_slash (rev y) = []) as ->.
  { destruct Hy as [-> | [v ->]]; [done|]. by rewrite rev_app_distr. }
  by rewrite app_nil_r, rev_involutive.
Qed.

Lemma of_string_inj a b : of_string a = of_string b -> a = b.
Proof.
  intros E. apply (f_equal to_string) in E. unfold to_string, of_string in E.
  by rewrite !string_of_list_ascii_of_string in E.
Qed.

(** X1. Whatever the event and the clock, the key the artifact is
    uploaded to is not the key of the original: the upload cannot
    overwrite the object it was made from. *)
Theorem upload_spares_original env object :
  bucketFilePath env object ≠ filePath object ∧
  artifact env object ≠ original object.
Proof.
  pose proof (bucketFilePath_fresh env object) as H.
  split; [done|]. unfold artifact, original. by intros [= E].
Qed.

(** X2. The file name of the destination key is the ISO timestamp of
    the run, an underscore and the base name of the original, whatever
    the directory, and it holds no slash. *)
Theorem destination_basename env object :
  basename (bucketFilePath env object)
  = toISOString (now env) +:+ "_" +:+ baseFileName object.
Proof.
  destruct (bucketFilePath_split env object) as (y & Hy & Hdy).
  unfold basename at 1. rewrite Hy.
  rewrite basename_l_name;
    [ | done | apply name_plain, no_slash_basename
      | apply name_plain, no_slash_basename ].
  unfold toISOString, baseFileName, basename.
  apply of_string_inj.
  rewrite !of_string_app, !of_to_string. done.
Qed.

(** X3. Two runs whose timestamps differ, or whose originals have
    different base names, upload to different keys. *)
Theorem distinct_runs_distinct_keys env1 object1 env2 object2 :
  toISOString (now env1) ≠ toISOString (now env2) ∨
  baseFileName object1 ≠ baseFileName object2 ->
  bucketFilePath env1 object1 ≠ bucketFilePath env2 object2.
Proof.
  intros Hdiff E. apply destination_keys_distinct in E as [Ht Hb].
  by destruct Hdiff.
Qed.

(** The same picture, a millisecond later. *)
Lemma distinct_runs_distinct_keys_witness :
  (toISOString (now reliable) ≠ toISOString (now (reliableAt 1700000000001)) ∨
   baseFileName pic ≠ baseFileName pic) ∧
  bucketFilePath reliable pic ≠ bucketFilePath (reliableAt 1700000000001) pic.
Proof.
  assert (toISOString (now reliable)
            ≠ toISOString (now (reliableAt 1700000000001)) ∨
          baseFileName pic ≠ baseFileName pic) as H
    by (left; vm_compute; discriminate).
  split; [exact H | exact (distinct_runs_distinct_keys _ _ _ _ H)].
Defined.

Lemma dirname_l_no_slash p : no_slash p -> dirname_l p = dot.
Proof.
  intros Hp. destruct p as [|c0 rest]; [done|].
  inversion Hp as [|? ? Hc0 Hrest]. subst. unfold dirname_l.
  rewrite (dropWhile_none is_slash) by (by apply no_slash_rev).
  rewrite (dropWhile_all not_slash)
    by (by apply no_slash_not_slash, no_slash_rev).
  by rewrite Hc0.
Qed.

(** X4. An object at the root of the bucket, whose name holds no slash,
    is never processed: its directory is "." and the run is skipped,
    whatever its content type. *)
Theorem skip_root_object env object w :
  no_slash (of_string (filePath object)) ->
  fileDir object = "." ∧ skipped w (run env object w).
Proof.
  intros Hp.
  assert (fileDir object = ".") as Hdir.
  { unfold fileDir, dirname. by rewrite dirname_l_no_slash. }
  split; [done|]. apply run_not_staged. by rewrite Hdir.
Qed.

Lemma skip_root_object_witness :
  no_slash (of_string (filePath rootPic)) ∧
  fileDir rootPic = "." ∧
  skipped (worldWith rootPic small) (run reliable rootPic (worldWith rootPic small)).
Proof.
  assert (no_slash (of_string (filePath rootPic))) as H
    by (vm_compute; repeat constructor).
  split; [exact H | exact (skip_root_object reliable rootPic _ H)].
Defined.

(** ** Names made of plain segments *)

Lemma unsegments_cons s r :
  r ≠ [] -> unsegments (s :: r) = s ++ "/"%char :: unsegments r.
Proof. by destruct r. Qed.

Lemma unsegments_segments p : unsegments (segments p) = p.
Proof.
  induction p as [|c p IH]; [done|]. cbn [segments].
  pose proof (segments_nonempty p) as Hne.
  destruct (is_slash c) eqn:E.
  - apply eqc_eq in E as ->. by rewrite unsegments_cons, IH.
  - destruct (segments p) as [|seg rest]; [done|].
    destruct rest as [|seg' rest]; [by rewrite <- IH|].
    rewrite unsegments_cons in IH by done.
    rewrite unsegments_cons by done. by rewrite <- IH.
Qed.

Lemma unsegments_slashed ss r :
  r ≠ [] -> unsegments (ss ++ r) = slashed ss ++ unsegments r.
Proof.
  intros Hr. induction ss as [|s ss IH]; [done|].
  cbn [app]. rewrite unsegments_cons by (by destruct ss, r).
  rewrite IH. unfold slashed. cbn [map concat].
  by rewrite <- !app_assoc.
Qed.

Lemma plain_no_slash ss : Forall plain ss -> Forall no_slash ss.
Proof. intros H. eapply Forall_impl; [exact H|]. by intros ? [? _]. Qed.

Lemma segments_slashed ss r :
  Forall no_slash ss -> segments (slashed ss ++ r) = ss ++ segments r.
Proof.
  induction 1 as [|s ss Hs _ IH]; [done|].
  unfold slashed. cbn [map concat]. rewrite <- !app_assoc. cbn [app].
  rewrite segments_app_slash, (segments_no_slash s Hs).
  fold (slashed ss). by rewrite IH.
Qed.

Lemma foldl_norm_step_plain allow stack ss :
  Forall plain ss ->
  foldl (norm_step allow) stack ss = rev ss ++ stack.
Proof.
  intros Hss. revert stack.
  induction Hss as [|s ss Hs _ IH]; intros stack; [done|].
  cbn [foldl]. rewrite norm_step_plain by done. rewrite IH.
  cbn [rev]. by rewrite <- app_assoc.
Qed.

Lemma plain_head s : plain s -> ∃ c r, s = c :: r ∧ is_slash c = false.
Proof.
  intros (Hs & Hne & _). destruct s as [|c r]; [done|].
  exists c, r. split; [done|]. by inversion Hs.
Qed.

(** [normalize] is the identity on a relative path of plain segments. *)
Lemma normalize_l_plain ss n :
  Forall plain ss -> plain n ->
  normalize_l (unsegments (ss ++ [n])) = unsegments (ss ++ [n]).
Proof.
  intros Hss Hn.
  assert (Forall plain (ss ++ [n])) as Hall
    by (apply Forall_app; split; [done | by constructor]).
  set (p := unsegments (ss ++ [n])).
  assert (segments p = ss ++ [n]) as Hseg.
  { unfold p. rewrite unsegments_slashed by done.
    rewrite segments_slashed by (by apply plain_no_slash).
    cbn [unsegments]. by rewrite segments_no_slash by apply Hn. }
  assert (hasRoot p = false) as Hroot.
  { unfold p. rewrite unsegments_slashed by done. cbn [unsegments].
    destruct Hss as [|s ss Hs _].
    - destruct (plain_head n Hn) as (c & r & -> & Hc). done.
    - destruct (plain_head s Hs) as (c & r & -> & Hc). done. }
  assert (trailingSeparator p = false) as Htrail.
  { unfold p. rewrite unsegments_slashed by done. cbn [unsegments].
    by apply trailingSeparator_plain. }
  assert (p ≠ []) as Hp.
  { intros E. rewrite E in Hseg. cbn in Hseg. destruct ss; [|by destruct ss].
    injection Hseg as <-. by destruct Hn as (_ & ? & _). }
  rewrite normalize_l_unfold by done. cbv zeta.
  rewrite Hroot, Htrail. unfold normalizeString.
  rewrite Hseg, foldl_norm_step_plain by done.
  rewrite app_nil_r, rev_involutive. fold p.
  by destruct p.
Qed.

Lemma unsegments_nonempty ss n : plain n -> unsegments (ss ++ [n]) ≠ [].
Proof.
  intros (_ & Hne & _). rewrite unsegments_slashed by done. cbn [unsegments].
  by destruct (slashed ss), n.
Qed.

Lemma join_l_plain ss d n :
  Forall plain ss -> plain d -> plain n ->
  join_l (unsegments (ss ++ [d])) n = unsegments (ss ++ [d; n]).
Proof.
  intros Hss Hd Hn.
  rewrite join_l_unfold by apply Hn.
  pose proof (unsegments_nonempty ss d Hd) as Hne.
  destruct (unsegments (ss ++ [d])) as [|c r] eqn:E; [done|].
  rewrite <- E.
  assert (unsegments (ss ++ [d]) ++ ["/"%char] ++ n
          = unsegments ((ss ++ [d]) ++ [n])) as Hjoin.
  { rewrite (unsegments_slashed ss [d]) by done.
    rewrite (unsegments_slashed (ss ++ [d]) [n]) by done.
    unfold slashed. rewrite map_app, concat_app. cbn [map concat unsegments].
    by rewrite app_nil_r, <- !app_assoc. }
  rewrite <- app_assoc, Hjoin.
  rewrite normalize_l_plain by
    (first [done | apply Forall_app; split; [done | by constructor]]).
  by rewrite <- app_assoc.
Qed.

Lemma dropWhile_app_all f l k :
  Forall (λ c, f c = true) l -> dropWhile f (l ++ k) = dropWhile f k.
Proof. induction 1 as [|c l Hc _ IH]; simpl; [done|]. by rewrite Hc. Qed.

Lemma dropWhile_slash_plain n k :
  no_slash n -> n ≠ [] -> dropWhile is_slash (rev n ++ k) = rev n ++ k.
Proof.
  intros Hn Hne. apply no_slash_rev in Hn. destruct (rev n) as [|c r] eqn:E.
  - apply (f_equal (@rev _)) in E. by rewrite rev_involutive in E.
  - simpl. inversion Hn as [|? ? Hc _]. by rewrite Hc.
Qed.

Lemma dirname_l_plain ss d n :
  Forall plain ss -> plain d -> plain n ->
  dirname_l (unsegments (ss ++ [d; n])) = unsegments (ss ++ [d]).
Proof.
  intros Hss Hd Hn.
  assert (unsegments (ss ++ [d; n])
          = unsegments (ss ++ [d]) ++ "/"%char :: n) as ->.
  { rewrite !unsegments_slashed by done. cbn [unsegments].
    by rewrite <- app_assoc. }
  assert (∃ c r, unsegments (ss ++ [d]) = c :: r ∧ is_slash c = false)
    as (c & r & -> & Hc).
  { rewrite unsegments_slashed by done. cbn [unsegments].
    destruct Hss as [|s ss Hs _].
    - destruct (plain_head d Hd) as (c & r & -> & Hc). by exists c, r.
    - destruct (plain_head s Hs) as (c & r & -> & Hc).
      unfold slashed. cbn [map concat]. rewrite <- !app_assoc.
      by eexists c, _. }
  cbn [app]. unfold dirname_l.
  rewrite rev_app_distr. cbn [rev]. rewrite <- app_assoc. cbn [app].
  destruct Hn as (Hn & Hne & _).
  rewrite dropWhile_slash_plain by done.
  rewrite dropWhile_app_all by (by apply no_slash_not_slash, no_slash_rev).
  cbn [dropWhile]. change (not_slash "/"%char) with false. cbv iota.
  rewrite Hc. cbn [andb]. by rewrite rev_involutive.
Qed.

Lemma basename_l_plain ss d n :
  plain n -> basename_l (unsegments (ss ++ [d; n])) = n.
Proof.
  intros Hn. rewrite unsegments_slashed by done. cbn [unsegments].
  replace (slashed ss ++ d ++ "/"%char :: n)
    with ((slashed ss ++ d ++ ["/"%char]) ++ n)
    by (by rewrite <- !app_assoc).
  apply basename_l_name; [|apply Hn..].
  right. exists (slashed ss ++ d). by rewrite <- app_assoc.
Qed.

(** *** [replace] passes over segments that do not end in the pattern *)

Lemma first_slash a b x y :
  no_slash a -> no_slash b ->
  a ++ "/"%char :: x = b ++ "/"%char :: y -> a = b.
Proof.
  intros Ha. revert b. induction Ha as [|c a Hc _ IH]; intros b Hb E.
  - destruct Hb as [|d b Hd _]; [done|].
    injection E as <- _. done.
  - destruct Hb as [|d b Hd Hb].
    + injection E as -> _. done.
    + injection E as -> E. f_equal. by apply IH.
Qed.

Lemma endsWith_l_suffix p s1 : endsWith_l p (s1 ++ p) = true.
Proof.
  unfold endsWith_l. rewrite rev_app_distr.
  induction (rev p) as [|c l IH]; [done|].
  cbn [app startsWith_l]. unfold eqc. by rewrite Ascii.eqb_refl.
Qed.

Lemma replace_l_unfold pat rep s :
  replace_l pat rep s =
    if startsWith_l pat s then rep ++ drop (length pat) s
    else match s with
         | [] => []
         | c :: s' => c :: replace_l pat rep s'
         end.
Proof. by destruct s. Qed.

Lemma replace_l_segment pat rep s r :
  no_slash pat -> no_slash s ->
  endsWith_l pat s = false ->
  replace_l (pat ++ ["/"%char]) rep (s ++ "/"%char :: r)
  = s ++ "/"%char :: replace_l (pat ++ ["/"%char]) rep r.
Proof.
  intros Hpat Hs Hend.
  assert (∀ s1 s2, s = s1 ++ s2 -> s2 ≠ pat) as Hsuf.
  { intros s1 s2 -> ->. by rewrite endsWith_l_suffix in Hend. }
  clear Hend.
  assert (∀ s2, no_slash s2 -> s2 ≠ pat ->
            startsWith_l (pat ++ ["/"%char]) (s2 ++ "/"%char :: r) = false)
    as Hno.
  { intros s2 Hs2 Hne.
    destruct (startsWith_l _ (s2 ++ "/"%char :: r)) eqn:E; [|done].
    apply startsWith_l_prefix in E. rewrite <- app_assoc in E.
    cbn [app] in E. by apply first_slash in E. }
  induction Hs as [|c s Hc Hs IH].
  - cbn [app]. rewrite replace_l_unfold.
    change ("/"%char :: r) with ([] ++ "/"%char :: r) at 1.
    rewrite Hno; [done | constructor | ].
    apply (Hsuf [] []). done.
  - cbn [app]. rewrite replace_l_unfold.
    change (c :: s ++ "/"%char :: r) with ((c :: s) ++ "/"%char :: r) at 1.
    rewrite Hno; [ | by constructor | apply (Hsuf []); done ].
    cbn [app]. f_equal. apply IH. intros s1 s2 ->. apply (Hsuf (c :: s1)). done.
Qed.

Lemma startsWith_l_self p r : startsWith_l p (p ++ r) = true.
Proof.
  induction p as [|c p IH]; [done|].
  cbn [app startsWith_l]. unfold eqc. by rewrite Ascii.eqb_refl.
Qed.

Lemma replace_l_slashed pat rep ss r :
  no_slash pat -> Forall no_slash ss ->
  Forall (λ s, endsWith_l pat s = false) ss ->
  replace_l (pat ++ ["/"%char]) rep (slashed ss ++ pat ++ "/"%char :: r)
  = slashed ss ++ rep ++ r.
Proof.
  intros Hpat Hss Hend. induction Hss as [|s ss Hs _ IH].
  - cbn [slashed map concat app].
    replace (pat ++ "/"%char :: r) with ((pat ++ ["/"%char]) ++ r)
      by (by rewrite <- app_assoc).
    by rewrite replace_l_unfold, startsWith_l_self, drop_app_length.
  - inversion Hend as [|? ? Hs' Hend']. subst.
    unfold slashed. cbn [map concat]. rewrite <- !app_assoc. cbn [app].
    rewrite replace_l_segment by done. fold (slashed ss).
    by rewrite IH.
Qed.

Lemma plain_upload : plain (of_string "upload").
Proof. split_and!; [by repeat constructor | done..]. Qed.

Lemma plain_images : plain (of_string "images").
Proof. split_and!; [by repeat constructor | done..]. Qed.

(** The names of a staged object whose segments are plain. *)
Lemma tidy_names env object ss base :
  Forall plain ss -> plain base ->
  segments (of_string (filePath object)) = ss ++ [of_string "upload"; base] ->
  fileDir object = to_string (unsegments (ss ++ [of_string "upload"])) ∧
  baseFileName object = to_string base ∧
  scaledFilePath env object
  = to_string (unsegments
                 (ss ++ [of_string "upload";
                         toISOString_l (now env) ++ "_"%char :: base])).
Proof.
  intros Hss Hbase Hseg.
  pose proof (unsegments_segments (of_string (filePath object))) as Hp.
  rewrite Hseg in Hp.
  assert (fileDir object = to_string (unsegments (ss ++ [of_string "upload"])))
    as Hdir.
  { unfold fileDir, dirname. rewrite <- Hp.
    by rewrite dirname_l_plain by (first [done | apply plain_upload]). }
  assert (baseFileName object = to_string base) as Hb.
  { unfold baseFileName, basename. rewrite <- Hp.
    by rewrite basename_l_plain. }
  split_and!; [done | done |].
  unfold scaledFilePath, normalize, join, toISOString. rewrite Hdir, Hb.
  rewrite !of_to_string, !of_string_app, !of_to_string.
  change (of_string "_" ++ base) with ("_"%char :: base).
  assert (plain (toISOString_l (now env) ++ "_"%char :: base)) as Hn
    by apply name_plain, Hbase.
  rewrite join_l_plain by (first [done | apply plain_upload]).
  change (ss ++ [of_string "upload"; ?n])
    with (ss ++ [of_string "upload"] ++ [n]).
  rewrite app_assoc.
  rewrite normalize_l_plain;
    [ done | apply Forall_app; split; [done|]; constructor;
             [apply plain_upload | constructor] | done ].
Qed.

(** X5. For a name made of plain segments none of which ends in
    "upload", followed by the staging directory and the file name, the
    destination key is the same path with "images" in the place of
    the staging directory and the timestamp before the file name; and
    the event of that artifact is skipped by the filter, so the
    pipeline does not run on its own output. *)
Theorem tidy_name_destination env object ss base :
  tidy ss -> plain base ->
  segments (of_string (filePath object)) = ss ++ [of_string "upload"; base] ->
  bucketFilePath env object
  = to_string (unsegments
                 (ss ++ [of_string "images";
                         toISOString_l (now env) ++ "_"%char :: base])) ∧
  ∀ env' again w',
    name again = Some (bucketFilePath env object) ->
    skipped w' (run env' again w').
Proof.
  intros [Hss Hend] Hbase Hseg.
  destruct (tidy_names env object ss base Hss Hbase Hseg) as (_ & _ & Hsc).
  assert (plain (toISOString_l (now env) ++ "_"%char :: base)) as Hn
    by apply name_plain, Hbase.
  set (n := toISOString_l (now env) ++ "_"%char :: base) in *.
  assert (bucketFilePath env object
          = to_string (unsegments (ss ++ [of_string "images"; n]))) as Hkey.
  { unfold bucketFilePath, replace. rewrite Hsc, of_to_string.
    rewrite !unsegments_slashed by done.
    rewrite !(unsegments_cons _ [n]) by done. cbn [unsegments].
    change (of_string "upload/") with (of_string "upload" ++ ["/"%char]).
    rewrite replace_l_slashed;
      [ | by repeat constructor | by apply plain_no_slash | done ].
    done. }
  split; [exact Hkey|].
  intros env' again w' Hname. apply run_not_staged.
  assert (filePath again = bucketFilePath env object) as Hpath
    by (unfold filePath; by rewrite Hname).
  unfold fileDir, dirname. rewrite Hpath, Hkey, of_to_string.
  rewrite dirname_l_plain by (first [done | apply plain_images]).
  unfold endsWith, endsWith_l. rewrite of_to_string.
  rewrite unsegments_slashed by done. cbn [unsegments].
  rewrite rev_app_distr. reflexivity.
Qed.

(** The picture of the scenarios: three plain segments before the
    staging directory. *)
Lemma tidy_name_destination_witness :
  let ss := [of_string "files"; of_string "u1"; of_string "assets"] in
  tidy ss ∧ plain (of_string "pic.png") ∧
  segments (of_string (filePath pic))
    = ss ++ [of_string "upload"; of_string "pic.png"] ∧
  bucketFilePath reliable pic
    = to_string (unsegments
                   (ss ++ [of_string "images";
                           toISOString_l (now reliable) ++ "_"%char
                             :: of_string "pic.png"])) ∧
  skipped (worldWith scaled small) (run reliable scaled (worldWith scaled small)).
Proof.
  intros ss.
  assert (tidy ss) as H1.
  { split; repeat constructor; done. }
  assert (plain (of_string "pic.png")) as H2.
  { split_and!; [by repeat constructor | done..]. }
  assert (segments (of_string (filePath pic))
          = ss ++ [of_string "upload"; of_string "pic.png"]) as H3
    by (vm_compute; reflexivity).
  destruct (tidy_name_destination reliable pic ss _ H1 H2 H3) as [Hkey Hskip].
  split_and!; [exact H1 | exact H2 | exact H3 | exact Hkey |].
  apply Hskip. vm_compute. reflexivity.
Defined.

(** *** The local files of a staged object *)

Lemma slashed_unsegments xs :
  xs ≠ [] -> slashed xs = unsegments xs ++ ["/"%char].
Proof.
  induction xs as [|x xs IH]; [done|]. intros _.
  destruct xs as [|x' xs].
  - unfold slashed. cbn [map concat unsegments]. by rewrite app_nil_r.
  - rewrite unsegments_cons by done.
    unfold slashed in *. cbn [map concat] in *. rewrite IH by done.
    by rewrite <- !app_assoc.
Qed.

Lemma unsegments_app xs ys :
  xs ≠ [] -> ys ≠ [] ->
  unsegments (xs ++ ys) = unsegments xs ++ "/"%char :: unsegments ys.
Proof.
  intros Hx Hy. rewrite unsegments_slashed, slashed_unsegments by done.
  by rewrite <- app_assoc.
Qed.

Lemma unsegments_head ss n :
  Forall plain ss -> plain n ->
  ∃ c r, unsegments (ss ++ [n]) = c :: r ∧ is_slash c = false.
Proof.
  intros Hss Hn. rewrite unsegments_slashed by done. cbn [unsegments].
  destruct Hss as [|s ss Hs _].
  - destruct (plain_head n Hn) as (c & r & -> & Hc). by exists c, r.
  - destruct (plain_head s Hs) as (c & r & -> & Hc).
    unfold slashed. cbn [map concat]. rewrite <- !app_assoc.
    by eexists c, _.
Qed.

(** [normalize] is the identity on an absolute path of plain segments
    too. *)
Lemma normalize_l_rooted ss n :
  Forall plain ss -> plain n ->
  normalize_l ("/"%char :: unsegments (ss ++ [n]))
  = "/"%char :: unsegments (ss ++ [n]).
Proof.
  intros Hss Hn.
  assert (Forall plain (ss ++ [n])) as Hall
    by (apply Forall_app; split; [done | by constructor]).
  set (u := unsegments (ss ++ [n])).
  assert (segments u = ss ++ [n]) as Hseg.
  { unfold u. rewrite unsegments_slashed by done.
    rewrite segments_slashed by (by apply plain_no_slash).
    cbn [unsegments]. by rewrite segments_no_slash by apply Hn. }
  assert (trailingSeparator ("/"%char :: u) = false) as Htrail.
  { unfold u. rewrite unsegments_slashed by done. cbn [unsegments].
    change ("/"%char :: slashed ss ++ n)
      with (("/"%char :: slashed ss) ++ n).
    by apply trailingSeparator_plain. }
  assert (u ≠ []) as Hu by (by apply unsegments_nonempty).
  rewrite normalize_l_unfold by done. cbv zeta.
  rewrite Htrail. cbn [hasRoot negb]. change (is_slash "/"%char) with true.
  cbv iota. unfold normalizeString. cbn [segments].
  change (is_slash "/"%char) with true. cbv iota. rewrite Hseg.
  cbn [foldl]. change (norm_step false [] []) with (@nil chars).
  rewrite foldl_norm_step_plain by done.
  rewrite app_nil_r, rev_involutive. fold u.
  by destruct u.
Qed.

Lemma join_l_rooted ts ss n :
  Forall plain ts -> ts ≠ [] -> Forall plain ss -> plain n ->
  join_l ("/"%char :: unsegments ts) (unsegments (ss ++ [n]))
  = "/"%char :: unsegments ts ++ "/"%char :: unsegments (ss ++ [n]).
Proof.
  intros Hts Hne Hss Hn.
  pose proof (unsegments_nonempty ss n Hn) as Hu.
  unfold join_l. destruct (unsegments (ss ++ [n])) as [|c r] eqn:E; [done|].
  rewrite <- E. cbn [app].
  rewrite <- unsegments_app by (first [done | by destruct ss]).
  rewrite app_assoc. apply normalize_l_rooted; [|done].
  by apply Forall_app.
Qed.

Lemma dirname_l_rooted ss d n :
  Forall plain ss -> plain d -> plain n ->
  dirname_l ("/"%char :: unsegments (ss ++ [d; n]))
  = "/"%char :: unsegments (ss ++ [d]).
Proof.
  intros Hss Hd Hn.
  assert (unsegments (ss ++ [d; n])
          = unsegments (ss ++ [d]) ++ "/"%char :: n) as ->.
  { rewrite !unsegments_slashed by done. cbn [unsegments].
    by rewrite <- app_assoc. }
  destruct (unsegments_head ss d Hss Hd) as (c & r & -> & Hc).
  unfold dirname_l. rewrite rev_app_distr. cbn [rev].
  rewrite <- !app_assoc. cbn [app].
  destruct Hn as (Hn & Hne & _).
  rewrite dropWhile_slash_plain by done.
  rewrite dropWhile_app_all by (by apply no_slash_not_slash, no_slash_rev).
  cbn [dropWhile]. change (not_slash "/"%char) with false. cbv iota.
  change (is_slash "/"%char) with true. cbn [andb].
  rewrite bool_decide_eq_false_2 by (by destruct (rev r)).
  by rewrite rev_app_distr, rev_involutive.
Qed.

Lemma to_string_app a b : to_string (a ++ b) = to_string a +:+ to_string b.
Proof. apply of_string_inj. by rewrite of_string_app, !of_to_string. Qed.

Lemma to_of_string s : to_string (of_string s) = s.
Proof. apply string_of_list_ascii_of_string. Qed.

(** X6. With a temporary directory that is an absolute path of plain
    segments, and a staged name of plain segments, the two local files
    are the temporary directory followed by the key of the original
    and by the timestamped path, they are different files, and both
    lie in the directory that [mkdirp] creates. *)
Theorem tidy_local_files env object ts ss base :
  Forall plain ts -> ts ≠ [] ->
  segments (of_string (tmpdir env)) = [] :: ts ->
  Forall plain ss -> plain base ->
  segments (of_string (filePath object)) = ss ++ [of_string "upload"; base] ->
  tempLocalFile env object = tmpdir env +:+ "/" +:+ filePath object ∧
  tempLocalScaledFile env object
    = tmpdir env +:+ "/" +:+ scaledFilePath env object ∧
  tempLocalDir env object = tmpdir env +:+ "/" +:+ fileDir object ∧
  dirname (tempLocalScaledFile env object) = tempLocalDir env object ∧
  tempLocalFile env object ≠ tempLocalScaledFile env object.
Proof.
  intros Hts Hne Htmp Hss Hbase Hseg.
  destruct (tidy_names env object ss base Hss Hbase Hseg) as (Hdir & _ & Hsc).
  pose proof (unsegments_segments (of_string (filePath object))) as Hp.
  rewrite Hseg in Hp.
  pose proof (unsegments_segments (of_string (tmpdir env))) as Ht.
  rewrite Htmp, unsegments_cons in Ht by done. cbn [app] in Ht.
  assert (plain (toISOString_l (now env) ++ "_"%char :: base)) as Hn
    by apply name_plain, Hbase.
  set (n := toISOString_l (now env) ++ "_"%char :: base) in *.
  assert (Forall plain (ss ++ [of_string "upload"])) as Hss'
    by (apply Forall_app; split; [done|]; constructor;
        [apply plain_upload | constructor]).
  assert (∀ x, plain x ->
            join_l (of_string (tmpdir env))
              (unsegments (ss ++ [of_string "upload"; x]))
            = of_string (tmpdir env) ++ "/"%char
                :: unsegments (ss ++ [of_string "upload"; x])) as Hjoin.
  { intros x Hx. rewrite <- Ht.
    change (ss ++ [of_string "upload"; x])
      with (ss ++ [of_string "upload"] ++ [x]).
    rewrite app_assoc. by apply join_l_rooted. }
  assert (∀ x, to_string (of_string (tmpdir env) ++ "/"%char :: x)
               = tmpdir env +:+ "/" +:+ to_string x) as Hglue.
  { intros x. change ("/"%char :: x) with (of_string "/" ++ x).
    by rewrite !to_string_app, !to_of_string. }
  assert (∀ x, plain x ->
            dirname_l (of_string (tmpdir env) ++ "/"%char
                         :: unsegments (ss ++ [of_string "upload"; x]))
            = of_string (tmpdir env) ++ "/"%char
                :: unsegments (ss ++ [of_string "upload"])) as Hdirname.
  { intros x Hx. rewrite <- Ht. cbn [app].
    rewrite <- !unsegments_app by (first [done | by destruct ss]).
    rewrite (app_assoc ts ss), dirname_l_rooted;
      [ by rewrite <- app_assoc | by apply Forall_app
      | apply plain_upload | done ]. }
  assert (of_string (tempLocalFile env object)
          = of_string (tmpdir env) ++ "/"%char
              :: unsegments (ss ++ [of_string "upload"; base])) as Hfile.
  { unfold tempLocalFile, join.
    by rewrite of_to_string, <- Hp, Hjoin. }
  assert (of_string (tempLocalScaledFile env object)
          = of_string (tmpdir env) ++ "/"%char
              :: unsegments (ss ++ [of_string "upload"; n])) as Hscaled.
  { unfold tempLocalScaledFile, join.
    by rewrite of_to_string, Hsc, of_to_string, Hjoin. }
  assert (tempLocalDir env object = tmpdir env +:+ "/" +:+ fileDir object)
    as Hlocaldir.
  { unfold tempLocalDir, dirname at 1.
    by rewrite Hfile, Hdirname, Hglue, Hdir. }
  split_and!.
  - apply of_string_inj. by rewrite Hfile, !of_string_app, <- Hp.
  - apply of_string_inj.
    by rewrite Hscaled, !of_string_app, Hsc, of_to_string.
  - done.
  - unfold dirname at 1.
    by rewrite Hscaled, Hdirname, Hglue, Hlocaldir, Hdir.
  - intros E. apply (f_equal of_string) in E. rewrite Hfile, Hscaled in E.
    apply app_inv_head in E. injection E as E.
    rewrite !unsegments_slashed in E by done.
    apply app_inv_head in E. cbn [unsegments] in E.
    apply app_inv_head in E. injection E as E.
    apply (f_equal (@length _)) in E. unfold n in E.
    rewrite length_app in E. cbn [length] in E. lia.
Qed.

Lemma tidy_local_files_witness :
  let ts := [of_string "tmp"] in
  let ss := [of_string "files"; of_string "u1"; of_string "assets"] in
  Forall plain ts ∧ ts ≠ [] ∧
  segments (of_string (tmpdir reliable)) = [] :: ts ∧
  Forall plain ss ∧ plain (of_string "pic.png") ∧
  segments (of_string (filePath pic))
    = ss ++ [of_string "upload"; of_string "pic.png"] ∧
  tempLocalFile reliable pic = tmpdir reliable +:+ "/" +:+ filePath pic ∧
  tempLocalFile reliable pic ≠ tempLocalScaledFile reliable pic.
Proof.
  intros ts ss.
  assert (Forall plain ts) as H1 by (repeat constructor; done).
  assert (ts ≠ []) as H2 by done.
  assert (segments (of_string (tmpdir reliable)) = [] :: ts) as H3
    by (vm_compute; reflexivity).
  assert (Forall plain ss) as H4 by (repeat constructor; done).
  assert (plain (of_string "pic.png")) as H5
    by (split_and!; [by repeat constructor | done..]).
  assert (segments (of_string (filePath pic))
          = ss ++ [of_string "upload"; of_string "pic.png"]) as H6
    by (vm_compute; reflexivity).
  destruct (tidy_local_files reliable pic ts ss _ H1 H2 H3 H4 H5 H6)
    as (Hf & _ & _ & _ & Hne).
  split_and!;
    [exact H1 | exact H2 | exact H3 | exact H4 | exact H5 | exact H6
    | exact Hf | exact Hne].
Defined.

(** ** What a run changes, and what it leaves alone *)

(** X7. The two tests of the filter decide alone whether anything is
    done: the run is skipped exactly when the content type is not an
    image type or the directory does not end in "/upload", and in every
    other case the local directory is created first, whatever the
    bucket holds. *)
Theorem filter_decides env object w :
  (passesFilter object = false <-> skipped w (run env object w)) ∧
  (passesFilter object = true <->
   attempted (CMkdirp (tempLocalDir env object))
     (trace (snd (run env object w)))).
Proof.
  unfold passesFilter, skipped. run_cases.
  all: split; split.
  all: lazymatch goal with
       | |- _ = false -> _ =>
           let H := fresh in
           intros H;
           first [ discriminate H
                 | split_and!; [reflexivity | reflexivity | apply quiet_two] ]
       | |- _ ∧ _ -> _ =>
           let H := fresh in
           intros [H _]; first [reflexivity | discriminate H]
       | |- _ = true -> _ =>
           let H := fresh in
           intros H; first [discriminate H | attempted_here]
       | |- attempted _ _ -> _ =>
           first [intros _; reflexivity | never_attempted]
       end.
Qed.

(** X8. A run reads and writes two keys of the bucket, the original and
    the destination; every other object, in this bucket or in another,
    is as it was, however the run ends. *)
Theorem other_objects_untouched env object w k :
  k ≠ original object ->
  k ≠ artifact env object ->
  storage (world (snd (run env object w))) !! k = storage w !! k.
Proof.
  intros Ho Ha. names. run_cases.
  all: by rewrite ?lookup_delete_ne, ?lookup_insert_ne by done.
Qed.

Lemma other_objects_untouched_witness :
  let k := ("app.appspot.com", "files/u1/avatar.png") in
  k ≠ original pic ∧ k ≠ artifact reliable pic ∧
  storage (world (snd (run reliable pic crowded))) !! k = storage crowded !! k.
Proof.
  intros k.
  assert (k ≠ original pic) as H1 by (vm_compute; discriminate).
  assert (k ≠ artifact reliable pic) as H2 by (vm_compute; discriminate).
  split_and!; [exact H1 | exact H2 |].
  exact (other_objects_untouched reliable pic crowded k H1 H2).
Defined.

(** X9. On the local disk a run touches the two temporary paths only:
    every other file is as it was, however the run ends. *)
Theorem other_files_untouched env object w f :
  f ≠ tempLocalFile env object ->
  f ≠ tempLocalScaledFile env object ->
  disk (world (snd (run env object w))) !! f = disk w !! f.
Proof.
  intros Ho Ha. run_cases.
  all: by rewrite ?lookup_delete_ne, ?lookup_insert_ne by done.
Qed.

Lemma other_files_untouched_witness :
  "/tmp/session.lock" ≠ tempLocalFile reliable pic ∧
  "/tmp/session.lock" ≠ tempLocalScaledFile reliable pic ∧
  disk (world (snd (run reliable pic crowded))) !! "/tmp/session.lock"
    = disk crowded !! "/tmp/session.lock".
Proof.
  assert ("/tmp/session.lock" ≠ tempLocalFile reliable pic) as H1
    by (vm_compute; discriminate).
  assert ("/tmp/session.lock" ≠ tempLocalScaledFile reliable pic) as H2
    by (vm_compute; discriminate).
  split_and!; [exact H1 | exact H2 |].
  exact (other_files_untouched reliable pic crowded _ H1 H2).
Defined.



(** ** Failures *)

(** When the original is not in the bucket the world is left as it is
    and no result is returned. *)
Lemma run_without_original env object w :
  storage w !! original object = None ->
  world (snd (run env object w)) = w ∧
  ∀ res, fst (run env object w) ≠ Value (Some res).
Proof.
  intros Hb. names. run_cases.
  all: first [congruence | split; [reflexivity | intros ?; discriminate]].
Qed.



(** X12. An original that the decoder cannot read is never transformed
    or uploaded: the run ends with an error, the bucket and the
    documents are as they were, the original included, and the
    downloaded copy is left on the disk. *)
Theorem undecodable_image_publishes_nothing env object w b :
  storage w !! original object = Some b ->
  imageSize env b = None ->
  let st := snd (run env object w) in
  storage (world st) = storage w ∧
  firestore (world st) = firestore w ∧
  (∀ cmd args, ¬ attempted (CSpawn cmd args) (trace st)) ∧
  ¬ attempted (copyCall env object) (trace st) ∧
  ¬ attempted (uploadCall env object) (trace st) ∧
  (∀ res, fst (run env object w) ≠ Value (Some res)) ∧
  (passesFilter object = true -> ∃ e, fst (run env object w) = Thrown e) ∧
  (Done (downloadCall env object) ∈ trace st ->
   disk (world st) !! tempLocalFile env object = Some b).
Proof.
  intros Hb Hsize st. subst st. unfold passesFilter. names. run_cases.
  all: simplify_eq.
  all: split_goal.
  all: lazymatch goal with
       | |- storage _ = _ => reflexivity
       | |- firestore _ = _ => reflexivity
       | |- ¬ attempted _ _ => never_attempted
       | |- ∀ res, _ ≠ _ => intros ?; discriminate
       | |- _ = true -> _ =>
           let H := fresh in
           intros H; first [discriminate H | by eexists]
       | |- _ ∈ _ -> _ =>
           trace_goal ltac:(by rewrite ?lookup_insert_eq)
       end.
Qed.

Lemma undecodable_image_publishes_nothing_witness :
  storage (worldWith pic garbled) !! original pic = Some garbled ∧
  imageSize reliable garbled = None ∧
  storage (world (snd (run reliable pic (worldWith pic garbled))))
    = storage (worldWith pic garbled) ∧
  Done (downloadCall reliable pic)
    ∈ trace (snd (run reliable pic (worldWith pic garbled))) ∧
  disk (world (snd (run reliable pic (worldWith pic garbled))))
    !! tempLocalFile reliable pic = Some garbled.
Proof.
  assert (storage (worldWith pic garbled) !! original pic = Some garbled)
    as H1 by (vm_compute; reflexivity).
  assert (imageSize reliable garbled = None) as H2
    by (vm_compute; reflexivity).
  assert (Done (downloadCall reliable pic)
            ∈ trace (snd (run reliable pic (worldWith pic garbled))))
    as H3 by (vm_compute; elem_here).
  destruct (undecodable_image_publishes_nothing reliable pic _ garbled H1 H2)
    as (Hs & _ & _ & _ & _ & _ & _ & Hd).
  split_and!; [exact H1 | exact H2 | exact Hs | exact H3 | exact (Hd H3)].
Defined.

(** X13. When the original is wider than 1080 pixels and ImageMagick
    fails on it, nothing is uploaded: once the dimensions are read the
    run ends with the error of the [convert] process, and the bucket
    and the documents are as they were. There is no fallback to a
    copy. *)
Theorem failed_resize_publishes_nothing env object w b wd ht :
  storage w !! original object = Some b ->
  imageSize env b = Some (wd, ht) ->
  1080 < wd ->
  resize env "x1080" b = None ->
  let st := snd (run env object w) in
  storage (world st) = storage w ∧
  firestore (world st) = firestore w ∧
  ¬ attempted (copyCall env object) (trace st) ∧
  ¬ attempted (uploadCall env object) (trace st) ∧
  (Done (sizeOfCall env object) ∈ trace st ->
   fst (run env object w) = Thrown (Rejected (resizeCall env object))).
Proof.
  intros Hb Hsize Hwd Hres st. subst st. names. run_cases.
  all: simplify_eq.
  all: try (apply Z.ltb_ge in Hwide; cbn [fst] in Hwide; lia).
  all: split_goal.
  all: lazymatch goal with
       | |- storage _ = _ => reflexivity
       | |- firestore _ = _ => reflexivity
       | |- ¬ attempted _ _ => never_attempted
       | |- _ ∈ _ -> _ =>
           trace_goal ltac:(reflexivity)
       end.
Qed.

Lemma failed_resize_publishes_nothing_witness :
  storage (worldWith pic flat) !! original pic = Some flat ∧
  imageSize reliable flat = Some (2000, 0) ∧
  1080 < 2000 ∧
  resize reliable "x1080" flat = None ∧
  storage (world (snd (run reliable pic (worldWith pic flat))))
    = storage (worldWith pic flat) ∧
  fst (run reliable pic (worldWith pic flat))
    = Thrown (Rejected (resizeCall reliable pic)).
Proof.
  assert (storage (worldWith pic flat) !! original pic = Some flat)
    as H1 by (vm_compute; reflexivity).
  assert (imageSize reliable flat = Some (2000, 0)) as H2
    by (vm_compute; reflexivity).
  assert (1080 < 2000) as H3 by (vm_compute; reflexivity).
  assert (resize reliable "x1080" flat = None) as H4
    by (vm_compute; reflexivity).
  assert (Done (sizeOfCall reliable pic)
            ∈ trace (snd (run reliable pic (worldWith pic flat))))
    as H5 by (vm_compute; elem_here).
  destruct (failed_resize_publishes_nothing reliable pic _ flat 2000 0
              H1 H2 H3 H4) as (Hs & _ & _ & _ & He).
  split_and!;
    [exact H1 | exact H2 | exact H3 | exact H4 | exact Hs | exact (He H5)].
Defined.

(** X14. Until the upload has completed, the bucket and the documents
    are exactly as the run found them. *)
Theorem bucket_unchanged_until_upload env object w :
  ¬ Done (uploadCall env object) ∈ trace (snd (run env object w)) ->
  storage (world (snd (run env object w))) = storage w ∧
  firestore (world (snd (run env object w))) = firestore w.
Proof.
  names. run_cases.
  all: intros Hno.
  all: first [ split; reflexivity | exfalso; apply Hno; elem_here ].
Qed.

Lemma bucket_unchanged_until_upload_witness :
  ¬ Done (uploadCall uploadRefused pic)
      ∈ trace (snd (run uploadRefused pic (worldWith pic wide))) ∧
  storage (world (snd (run uploadRefused pic (worldWith pic wide))))
    = storage (worldWith pic wide) ∧
  firestore (world (snd (run uploadRefused pic (worldWith pic wide))))
    = firestore (worldWith pic wide).
Proof.
  assert (¬ Done (uploadCall uploadRefused pic)
            ∈ trace (snd (run uploadRefused pic (worldWith pic wide))))
    as H by (vm_compute; intros H; elem_cases H).
  split; [exact H|].
  exact (bucket_unchanged_until_upload uploadRefused pic _ H).
Defined.

(** ** Order in a long trace *)

(** [before] by positions: the proof is two lookups, however long the
    trace is. *)
Lemma before_lookup (i j : nat) a b (tr : list Event) :
  tr !! i = Some a -> tr !! j = Some b -> (i <? j)%nat = true ->
  before a b tr.
Proof.
  intros Hi Hj Hlt. apply Nat.ltb_lt in Hlt.
  pose proof (take_drop_middle tr i a Hi) as Hsplit.
  assert (drop (S i) tr !! (j - S i)%nat = Some b) as Hb.
  { rewrite lookup_drop. by replace (S i + (j - S i))%nat with j by lia. }
  pose proof (take_drop_middle _ _ _ Hb) as Hsplit'.
  exists (take i tr), (take (j - S i) (drop (S i) tr)),
    (drop (S (j - S i)) (drop (S i) tr)).
  by rewrite Hsplit', Hsplit.
Qed.

Ltac index_of e l :=
  lazymatch l with
  | e :: _ => constr:(O)
  | _ :: ?l' => let n := index_of e l' in constr:(S n)
  end.

Ltac before_at :=
  lazymatch goal with
  | |- before ?a ?b ?tr =>
      let i := index_of a tr in
      let j := index_of b tr in
      exact (before_lookup i j a b tr eq_refl eq_refl eq_refl)
  end.

Ltac before_call_at :=
  unfold before_call; first [left; before_at | right; before_at].

(** X15. There is no error handling in the handler: the first call
    that fails ends the run with its error. A failed call is the last
    event of the trace and its error is the outcome of the run, and a
    run that ends with the error of a call has that call failed. *)
Theorem first_failure_ends_run env object w c :
  (Failed c ∈ trace (snd (run env object w)) <->
   fst (run env object w) = Thrown (Rejected c)) ∧
  (Failed c ∈ trace (snd (run env object w)) ->
   last (trace (snd (run env object w))) = Some (Failed c)).
Proof.
  run_cases.
  all: split; [split|].
  all: lazymatch goal with
       | |- _ ∈ _ -> _ =>
           let H := fresh in
           intros H; elem_cases H; injection H as ->; reflexivity
       | |- _ = _ -> _ =>
           let H := fresh in
           intros H; first [discriminate H | injection H as <-; elem_here]
       end.
Qed.

Lemma first_failure_ends_run_witness :
  Failed (uploadCall uploadRefused pic)
    ∈ trace (snd (run uploadRefused pic (worldWith pic wide))) ∧
  fst (run uploadRefused pic (worldWith pic wide))
    = Thrown (Rejected (uploadCall uploadRefused pic)) ∧
  last (trace (snd (run uploadRefused pic (worldWith pic wide))))
    = Some (Failed (uploadCall uploadRefused pic)).
Proof.
  assert (Failed (uploadCall uploadRefused pic)
            ∈ trace (snd (run uploadRefused pic (worldWith pic wide))))
    as H by (vm_compute; elem_here).
  destruct (first_failure_ends_run uploadRefused pic (worldWith pic wide)
              (uploadCall uploadRefused pic)) as [[Hto _] Hlast].
  split_and!; [exact H | exact (Hto H) | exact (Hlast H)].
Defined.

(** X16. A failure after the original has been deleted is not rolled
    back: the original is gone, the artifact stays in the bucket, no
    document has been written, and the error is that of reading
    messageOrigin, of the document reference or of the update. *)
Theorem late_failure_not_rolled_back env object w e :
  Done (deleteCall object) ∈ trace (snd (run env object w)) ->
  fst (run env object w) = Thrown e ->
  let st := snd (run env object w) in
  storage (world st) !! original object = None ∧
  is_Some (storage (world st) !! artifact env object) ∧
  firestore (world st) = firestore w ∧
  (e = TypeError ∧ metadata object = None ∨
   e = Rejected (CDoc (originOf object)) ∨
   ∃ p, originOf object = Some p ∧
        e = Rejected (CUpdate p "resource"
                        (signedUrl env (bucket object)
                           (bucketFilePath env object)))).
Proof.
  pose proof (original_not_artifact env object) as Hne.
  assert (artifact env object ≠ original object) as Hne' by done.
  unfold originOf. names. run_cases.
  all: intros Hdel Hthrown.
  all: try (solve [elem_cases Hdel]).
  all: try discriminate Hthrown.
  all: injection Hthrown as <-.
  all: split_and!;
    [ by rewrite lookup_delete_eq
    | rewrite lookup_delete_ne, lookup_insert_eq by done; by eexists
    | reflexivity
    | first [ by left
            | right; left; reflexivity
            | right; right; by eexists ] ].
Qed.

Lemma late_failure_not_rolled_back_witness :
  let r := run reliable orphan (worldWith orphan wide) in
  Done (deleteCall orphan) ∈ trace (snd r) ∧
  fst r = Thrown (Rejected (CUpdate "msgs/gone" "resource"
                              (signedUrl reliable (bucket orphan)
                                 (bucketFilePath reliable orphan)))) ∧
  storage (world (snd r)) !! original orphan = None ∧
  is_Some (storage (world (snd r)) !! artifact reliable orphan).
Proof.
  intros r.
  assert (Done (deleteCall orphan) ∈ trace (snd r)) as H1
    by (vm_compute; elem_here).
  assert (fst r = Thrown (Rejected (CUpdate "msgs/gone" "resource"
                                      (signedUrl reliable (bucket orphan)
                                         (bucketFilePath reliable orphan)))))
    as H2 by (vm_compute; reflexivity).
  destruct (late_failure_not_rolled_back reliable orphan _ _ H1 H2)
    as (Ho & Ha & _).
  split_and!; [exact H1 | exact H2 | exact Ho | exact Ha].
Defined.

(** X17. Nothing is retried: in the trace of a run every kind of call
    occurs at most once, completed or failed, but for the two unlinks;
    the resize and the copy count as one kind, so a run never does
    both. *)
Theorem no_call_repeated env object w k :
  (count_kind k (trace (snd (run env object w)))
   ≤ match k with KUnlinkSync => 2 | _ => 1 end)%nat.
Proof.
  run_cases.
  all: destruct k; cbv [count_kind List.filter is_kind call_of length]; lia.
Qed.

(** X18. The stages run in the order of the source: the upload is made
    only after the download and the transformation have completed, the
    original is deleted only after both local files have been
    unlinked, and the document is addressed only after the original
    has been deleted. *)
Theorem stages_in_order env object w :
  let tr := trace (snd (run env object w)) in
  (attempted (uploadCall env object) tr ->
   before_call (Done (downloadCall env object)) (uploadCall env object) tr ∧
   before_call (Done (sizeOfCall env object)) (uploadCall env object) tr ∧
   (before_call (Done (resizeCall env object)) (uploadCall env object) tr ∨
    before_call (Done (copyCall env object)) (uploadCall env object) tr)) ∧
  (attempted (deleteCall object) tr ->
   before_call (Done (CUnlinkSync (tempLocalScaledFile env object)))
     (deleteCall object) tr ∧
   before_call (Done (CUnlinkSync (tempLocalFile env object)))
     (deleteCall object) tr) ∧
  (∀ o, attempted (CDoc o) tr ->
   o = originOf object ∧ before_call (Done (deleteCall object)) (CDoc o) tr) ∧
  (∀ p f v, attempted (CUpdate p f v) tr ->
   before_call (Done (CDoc (Some p))) (CUpdate p f v) tr).
Proof.
  intros tr. subst tr. unfold originOf. names. run_cases.
  all: split_and!.
  all: lazymatch goal with
       | |- attempted (CUpload _ _ _) _ -> _ =>
           trace_goal
             ltac:(split_and!;
                   [ before_call_at | before_call_at
                   | first [ left; before_call_at
                           | right; before_call_at ] ])
       | |- attempted (CDelete _ _) _ -> _ =>
           trace_goal ltac:(split; before_call_at)
       | |- ∀ o, attempted _ _ -> _ =>
           let H := fresh in
           intros ? [H|H]; elem_cases H; injection H as ->;
           (split; [done | before_call_at])
       | |- ∀ p f v, attempted _ _ -> _ =>
           let H := fresh in
           intros ? ? ? [H|H]; elem_cases H; injection H as -> -> ->;
           before_call_at
       end.
Qed.

Lemma stages_in_order_witness :
  let tr := trace (snd (run reliable pic (worldWith pic wide))) in
  attempted (uploadCall reliable pic) tr ∧
  attempted (deleteCall pic) tr ∧
  before_call (Done (downloadCall reliable pic)) (uploadCall reliable pic) tr ∧
  before_call (Done (CUnlinkSync (tempLocalFile reliable pic)))
    (deleteCall pic) tr.
Proof.
  intros tr.
  assert (attempted (uploadCall reliable pic) tr) as H1
    by (left; vm_compute; elem_here).
  assert (attempted (deleteCall pic) tr) as H2
    by (left; vm_compute; elem_here).
  destruct (stages_in_order reliable pic (worldWith pic wide))
    as (Hu & Hd & _).
  split_and!;
    [exact H1 | exact H2 | exact (proj1 (Hu H1)) | exact (proj2 (Hd H2))].
Defined.

(** ** Completion and redelivery *)

Lemma completion_deletes_original env object w res :
  fst (run env object w) = Value (Some res) ->
  storage (world (snd (run env object w))) !! original object = None.
Proof.
  names. run_cases.
  all: intros Hres; first [discriminate Hres | by rewrite lookup_delete_eq].
Qed.

(** X19. When the run completes, the event passed the filter and the
    original was in the bucket and decoded; the bucket is the old one
    with the artifact added and the original removed, and the artifact
    holds the output of the resize when the original is wider than
    1080 pixels and the bytes of the original otherwise. *)
Theorem completion_effect env object w res :
  fst (run env object w) = Value (Some res) ->
  passesFilter object = true ∧
  ∃ b d b',
    storage w !! original object = Some b ∧
    imageSize env b = Some d ∧
    (if 1080 <? fst d then resize env "x1080" b = Some b' else b' = b) ∧
    storage (world (snd (run env object w)))
      = delete (original object) (<[artifact env object := b']> (storage w)).
Proof.
  unfold passesFilter. names. run_cases.
  all: intros Hres; try discriminate Hres.
  all: split; [reflexivity|].
  all: eexists _, _, _; split_and!; [reflexivity | eassumption | | reflexivity].
  all: rewrite Hwide; first [eassumption | reflexivity].
Qed.

Lemma completion_effect_witness :
  let r := run reliable pic (worldWith pic wide) in
  fst r = Value (Some {| originalMetadata := {[ "messageOrigin" := "msgs/m1" ]};
                         url := signedUrl reliable (bucket pic)
                                  (bucketFilePath reliable pic) |}) ∧
  ∃ b d b',
    storage (worldWith pic wide) !! original pic = Some b ∧
    imageSize reliable b = Some d ∧
    (if 1080 <? fst d then resize reliable "x1080" b = Some b' else b' = b) ∧
    storage (world (snd r))
      = delete (original pic)
          (<[artifact reliable pic := b']> (storage (worldWith pic wide))).
Proof.
  intros r.
  assert (fst r
          = Value (Some {| originalMetadata := {[ "messageOrigin" := "msgs/m1" ]};
                           url := signedUrl reliable (bucket pic)
                                    (bucketFilePath reliable pic) |}))
    as H by (vm_compute; reflexivity).
  split; [exact H|].
  exact (proj2 (completion_effect reliable pic (worldWith pic wide) _ H)).
Defined.

(** X20. A second delivery of an event whose run has completed does
    nothing, whatever the clock and the collaborators do then: the
    original is gone, so the world stays as the first run left it and
    no second result is returned. *)
Theorem redelivery_changes_nothing env env' object w res :
  fst (run env object w) = Value (Some res) ->
  let w' := world (snd (run env object w)) in
  world (snd (run env' object w')) = w' ∧
  ∀ res', fst (run env' object w') ≠ Value (Some res').
Proof.
  intros Hres w'. subst w'.
  apply run_without_original, (completion_deletes_original _ _ _ _ Hres).
Qed.

Lemma redelivery_changes_nothing_witness :
  let r := run reliable pic (worldWith pic wide) in
  fst r = Value (Some {| originalMetadata := {[ "messageOrigin" := "msgs/m1" ]};
                         url := signedUrl reliable (bucket pic)
                                  (bucketFilePath reliable pic) |}) ∧
  world (snd (run (reliableAt 1700000000001) pic (world (snd r))))
    = world (snd r).
Proof.
  intros r.
  assert (fst r
          = Value (Some {| originalMetadata := {[ "messageOrigin" := "msgs/m1" ]};
                           url := signedUrl reliable (bucket pic)
                                    (bucketFilePath reliable pic) |}))
    as H by (vm_compute; reflexivity).
  split; [exact H|].
  exact (proj1 (redelivery_changes_nothing reliable (reliableAt 1700000000001)
                  pic (worldWith pic wide) _ H)).
Defined.



